(** * Pharmacy claims analytics (hippo-data): a shallow embedding

    The program is a batch pipeline over three in-memory data frames
    (pharmacies, claims, reverts) written with the polars data-frame
    library: [loader.py] builds the frames from files, [processor.py]
    joins and enriches the claims and derives three reports.

    Data frames are embedded as lists of rows (records).  The data-frame
    operations the program calls ([join], [group_by], [sort], [unique],
    [with_columns], [agg], ...) are embedded in module [Polars] with the
    behaviour polars has for the arguments the program passes:

    - [group_by] without [maintain_order=True] returns the groups in an
      unspecified order, rows inside a group keep the frame's order;
    - [sort] without [maintain_order=True] is not stable;
    - a left join keeps the row order of the left frame; an inner join
      promises no row order;
    - [group_by(...).map_groups] raises on a frame without rows, and
      [pl.concat] raises on frames of different schemas.

    The orders that change from run to run (groups, sort ties, [unique])
    are made explicit by an [Engine]: a function that rearranges a list,
    about which only [EngineLaws] (it returns a permutation) is known.
    Two runs of the program are two engines.  The row order of an inner
    join is fixed by the two frames (the rows follow the frame the join
    probes) but is not documented: it is a [Joiner], about which only
    [JoinerLaws] (a permutation again) is known.

    An exception is the value [None] or [inl] of the function that
    raises it; what [run_pharmacy_analytics] wrote before an exception
    is part of its result.

    Columns of dtype Float64 are values of an abstract type [num] with the
    operations the program applies to them (class [Float64]); the
    theorems hold for every interpretation of these operations that meets
    the order laws of [Float64Laws], and decimal fixed-point arithmetic
    ([Fixed.DecFloat]) is the interpretation used to run the pipeline
    on concrete inputs. *)

From Stdlib Require Import ZArith.
From stdpp Require Import base decidable option list strings numbers sorting.

Set Warnings "-clear-no-such-hyp".




(** ** The data-frame library *)

Module Polars.

(** Float64 columns: the operations of the library the program uses. *)
Class Float64 := {
  num : Type;
  num_eq_dec :: EqDecision num;
  (* the literal 0.0 *)
  zero : num;
  (* pl.sum of a column over the rows of a group, in row order *)
  fsum : list num → num;
  (* the division of two columns *)
  fdiv : num → num → num;
  (* .round(2) *)
  round2 : num → num;
  (* col > 0 *)
  gt0 : num → bool;
  (* the ascending order sort uses on a Float64 column *)
  fleb : num → num → bool;
}.

Class Float64Laws (F : Float64) : Prop := {
  fleb_total : ∀ x y : num, fleb x y = true ∨ fleb y x = true;
  fleb_trans : ∀ x y z : num, fleb x y = true → fleb y z = true → fleb x z = true;
  fleb_antisym : ∀ x y : num, fleb x y = true → fleb y x = true → x = y;
  gt0_zero : gt0 zero = false;
}.

(** The order in which an operation that promises none returns rows. *)
Class Engine := { shuffle : ∀ A : Type, list A → list A }.

Class EngineLaws (E : Engine) : Prop :=
  shuffle_perm : ∀ (A : Type) (l : list A), shuffle A l ≡ₚ l.

(** The order in which an inner join of the frames [left] and [right]
    returns the rows [rows] of its result: a function of the two
    frames, the same in every run. *)
Class Joiner := {
  inner_order : ∀ A B C : Type, list A → list B → list C → list C }.

Class JoinerLaws (J : Joiner) : Prop :=
  inner_order_perm : ∀ (A B C : Type) (left : list A) (right : list B)
    (rows : list C), inner_order A B C left right rows ≡ₚ rows.

(** *** Orders used as sort keys *)

(** Relation of a boolean comparison. *)
Definition le_of {A} (leb : A → A → bool) : relation A :=
  λ x y, leb x y = true.

#[global] Instance le_of_dec {A} (leb : A → A → bool) : RelDecision (le_of leb).
Proof. intros x y. unfold le_of. apply _. Defined.

(** A boolean comparison that is a total order. *)
Class LebOrder {A} (leb : A → A → bool) : Prop := {
  leb_total : ∀ x y, leb x y = true ∨ leb y x = true;
  leb_trans : ∀ x y z, leb x y = true → leb y z = true → leb x z = true;
  leb_antisym : ∀ x y, leb x y = true → leb y x = true → x = y;
}.

(** Several sort columns: the first decides, the next breaks its ties. *)
Definition lex_leb {A B} (leA : A → A → bool) (leB : B → B → bool)
    (x y : A * B) : bool :=
  if leA x.1 y.1 then (if leA y.1 x.1 then leB x.2 y.2 else true) else false.

(** A nullable column: nulls come first ([nulls_last=False]). *)
Definition null_first_leb {A} (leA : A → A → bool) (x y : option A) : bool :=
  match x, y with
  | None, _ => true
  | Some _, None => false
  | Some a, Some b => leA a b
  end.

(** Utf8 columns are ordered by their bytes. *)
Definition str_leb : string → string → bool := String.leb.

Section frame.
Context `{E : Engine} `{J : Joiner}.
Context {A : Type}.

(** [df.sort(by)]: some rearrangement of the rows that is ascending
    in the key. *)
Definition sort {K} (key : A → K) (leb : K → K → bool) (df : list A) : list A :=
  merge_sort (λ x y, le_of leb (key x) (key y)) (shuffle A df).

Context {K : Type} `{!EqDecision K}.

(** The distinct values of a column, in order of first appearance. *)
Fixpoint first_seen (ks : list K) : list K :=
  match ks with
  | [] => []
  | k :: ks' => k :: filter (λ k', k' ≠ k) (first_seen ks')
  end.

(** The groups of a frame by a key: every distinct key with the rows
    that carry it, in the frame's order. *)
Definition partition_by (key : A → K) (df : list A) : list (K * list A) :=
  (λ k, (k, filter (λ r, key r = k) df)) <$> first_seen (key <$> df).

(** [df.group_by(key, maintain_order=...)]. *)
Definition group_by (maintain_order : bool) (key : A → K) (df : list A)
    : list (K * list A) :=
  if maintain_order then partition_by key df
  else shuffle _ (partition_by key df).

(** [df.unique(subset=key)]: one row per key (polars keeps any one
    of them, here the first), in no particular order. *)
Definition unique (key : A → K) (df : list A) : list A :=
  shuffle A
    (omap (λ kg : K * list A, head kg.2) (partition_by key df)).

(** [df.group_by(key).map_groups(f)]: the frames [f] returns for the
    groups, put end to end; on a frame without rows the call raises
    [ComputeError]. *)
Definition map_groups {B} (key : A → K) (f : list A → list B) (df : list A)
    : option (list B) :=
  match df with
  | [] => None
  | _ => Some (kg ← group_by false key df; f kg.2)
  end.

(** [left.join(right, how="inner")]: one row per matching pair, in the
    order the join gives them. *)
Definition join_inner {B C} (lkey : A → K) (rkey : B → K) (row : A → B → C)
    (left : list A) (right : list B) : list C :=
  inner_order A B C left right
    (l ← left; row l <$> filter (λ r, rkey r = lkey l) right).

(** [left.join(right, how="left")]: as the inner join, and a left row
    without a match is kept with nulls for the right columns. *)
Definition join_left {B C} (lkey : A → K) (rkey : B → K)
    (row : A → option B → C) (left : list A) (right : list B) : list C :=
  l ← left;
  match filter (λ r, rkey r = lkey l) right with
  | [] => [row l None]
  | ms => row l <$> (Some <$> ms)
  end.
End frame.

(** [pl.col(c).max()] of a count column. *)
Definition col_max (xs : list nat) : nat := foldr Nat.max 0 xs.

(** [drop_nulls] of a list column. *)
Definition drop_nulls {A} (xs : list (option A)) : list A := omap id xs.

End Polars.

Import Polars.

(** ** Record model

    One record type per frame schema; a module per schema keeps the
    column names of the source. *)

Module Pharmacy.
(** Rows of the pharmacy frame: columns [npi], [chain]. *)
Record t := mk { npi : string; chain : string }.
End Pharmacy.

Module Claim.
(** Rows of the claims frame ([claims_schema] of [main.py]). *)
Record t `{Float64} := mk {
  id : string; npi : string; ndc : string;
  price : num; quantity : num; timestamp : string }.
Arguments mk {_}.
End Claim.

Module Revert.
(** Rows of the reverts frame ([reverts_schema] of [main.py]). *)
Record t := mk { id : string; claim_id : string; timestamp : string }.
End Revert.

Module Enriched.
(** A claim row with the added column [is_reverted]. *)
Record t `{Float64} := mk { claim : Claim.t; is_reverted : bool }.
Arguments mk {_}.
Definition npi `{Float64} (c : t) : string := Claim.npi (claim c).
Definition ndc `{Float64} (c : t) : string := Claim.ndc (claim c).
Definition price `{Float64} (c : t) : num := Claim.price (claim c).
Definition quantity `{Float64} (c : t) : num := Claim.quantity (claim c).
End Enriched.

Module WithChain.
(** An enriched claim row left-joined with the pharmacy frame: the
    column [chain] is null when no pharmacy matches. *)
Record t `{Float64} := mk { row : Enriched.t; chain : option string }.
Arguments mk {_}.
Definition ndc `{Float64} (r : t) : string := Enriched.ndc (row r).
Definition price `{Float64} (r : t) : num := Enriched.price (row r).
Definition quantity `{Float64} (r : t) : num := Enriched.quantity (row r).
End WithChain.

Module MetricAgg.
(** A group of [compute_npi_ndc_metrics] after [agg]. *)
Record t `{Float64} := mk {
  npi : string; ndc : string; fills : nat; reverted : nat;
  total_price : num; total_quantity : num }.
Arguments mk {_}.
End MetricAgg.

Module Metric.
(** A row of [npi_metrics.json]. *)
Record t `{Float64} := mk {
  npi : string; ndc : string; fills : nat; reverted : nat;
  avg_price : num; total_price : num }.
Arguments mk {_}.
End Metric.

Module ChainAgg.
(** A row of [chain_agg]: the sums of a (ndc, chain) group and the
    nullable column [avg_price]. *)
Record t `{Float64} := mk {
  ndc : string; chain : option string;
  total_price : num; total_quantity : num;
  avg_price : option num }.
Arguments mk {_}.
End ChainAgg.

Module ChainEntry.
(** An element of the [chain] list of [chain_recommendations.json]. *)
Record t `{Float64} := mk { name : option string; avg_price : num }.
Arguments mk {_}.
End ChainEntry.

Module DrugChains.
(** A row of [chain_recommendations.json]. *)
Record t `{Float64} := mk { ndc : string; chain : list ChainEntry.t }.
Arguments mk {_}.
End DrugChains.

Module QtyCount.
(** A (ndc, quantity) group with its [count] and, after [map_groups],
    the nullable column [mode_qty]. *)
Record t `{Float64} := mk {
  ndc : string; quantity : num; count : nat; mode_qty : option num }.
Arguments mk {_}.
End QtyCount.

Module Insight.
(** A row of [quantity_insights.json]. *)
Record t `{Float64} := mk {
  ndc : string; most_prescribed_quantity : list num }.
Arguments mk {_}.
End Insight.

Module Reports.
(** What [run_pharmacy_analytics] leaves in [output_dir]: the rows of
    the three files, [None] for a file that is not written because the
    call raised before it came to it. *)
Record t `{Float64} := mk {
  npi_metrics : option (list Metric.t);
  chain_recommendations : option (list DrugChains.t);
  quantity_insights : option (list Insight.t) }.
Arguments mk {_}.
End Reports.

(** ** loader.py *)

Module Loader.

(** What the file system holds for the loader.  Reading a file yields
    its rows, or nothing when the file is skipped (wrong suffix or
    missing columns) or the read raises (the [except] branch logs and
    goes on).  A path that is not a directory is skipped with a
    warning. *)
Definition File (A : Type) : Type := option (list A).
Definition Dir (A : Type) : Type := option (list (File A)).

(** The dtype [pl.read_csv] infers for a column. *)
Module Dtype.
Inductive t := Utf8 | Int64 | Float64 | Boolean.

#[global] Instance eq_dec : EqDecision t.
Proof. solve_decision. Defined.
End Dtype.

(** A pharmacy file as [pl.read_csv] returns it: the rows, and the
    dtype inferred for the column [chain], which the loader never casts
    (the column [npi] is cast to Utf8).  The rows carry the values of
    [chain] as text, as the record model of a pharmacy has them. *)
Record Csv := csv { chain_dtype : Dtype.t; rows : list Pharmacy.t }.

Definition CsvFile : Type := option Csv.
Definition CsvDir : Type := option (list CsvFile).

(** The exceptions the loader lets through. *)
Inductive Error := ValueError | SchemaError.

Section loader.
Context `{E : Engine}.

(** The list [dfs] at the end of the loops: one frame per file that
    was read, made unique on [key] file by file. *)
Definition read_dirs {A} (key : A → string) (dirs : list (Dir A))
    : list (list A) :=
  d ← dirs;
  match d with
  | None => []
  | Some files => omap (fmap (M:=option) (unique key)) files
  end.

(** The list [dfs] of [load_pharmacies]. *)
Definition read_pharmacy_dirs (dirs : list CsvDir) : list Csv :=
  d ← dirs;
  match d with
  | None => []
  | Some files =>
      omap (fmap (M:=option)
              (λ f, csv (chain_dtype f) (unique Pharmacy.npi (rows f))))
           files
  end.

(** [pl.concat(dfs)] of a list that is not empty: the frames put end
    to end when they have the schema of the first one, [SchemaError]
    otherwise. *)
Definition concat (df : Csv) (dfs : list Csv) : Error + list Pharmacy.t :=
  if decide (Forall (λ f, chain_dtype f = chain_dtype df) dfs)
  then inr (mjoin (rows <$> df :: dfs))
  else inl SchemaError.

(** [load_pharmacies]. *)
Definition load_pharmacies (dirs : list CsvDir) : Error + list Pharmacy.t :=
  match read_pharmacy_dirs dirs with
  | [] => inl ValueError
  | df :: dfs => concat df dfs
  end.

(** [load_events]; [id] is the column [id] of the schema. *)
Definition load_events {A} (id : A → string) (dirs : list (Dir A)) : list A :=
  match read_dirs id dirs with
  | [] => []
  | dfs => mjoin dfs
  end.
End loader.

End Loader.

(** ** processor.py *)

Module Processor.

Section processor.
Context `{F : Float64} `{E : Engine} `{J : Joiner}.

(** [filter_to_pharmacy_dataset]: the returned frame (the number of
    dropped rows only goes to the log). *)
Definition filter_to_pharmacy_dataset
    (df_claims : list Claim.t) (df_pharmacies : list Pharmacy.t)
    : list Claim.t :=
  let valid_npis := Pharmacy.npi <$> df_pharmacies in
  join_inner Claim.npi (λ n : string, n) (λ c _, c) df_claims valid_npis.

(** The number [dropped] of [filter_to_pharmacy_dataset]: rows before
    the join minus rows after it (a Python integer). *)
Definition dropped_claims
    (df_claims : list Claim.t) (df_pharmacies : list Pharmacy.t) : Z :=
  (Z.of_nat (length df_claims)
   - Z.of_nat (length (filter_to_pharmacy_dataset df_claims df_pharmacies)))%Z.

(** What [filter_to_pharmacy_dataset] logs: the message with [dropped],
    when [dropped] is not zero. *)
Definition dropped_log
    (df_claims : list Claim.t) (df_pharmacies : list Pharmacy.t) : option Z :=
  let dropped := dropped_claims df_claims df_pharmacies in
  if decide (dropped = 0%Z) then None else Some dropped.

(** [mark_reverted_claims]. *)
Definition mark_reverted_claims
    (df_claims : list Claim.t) (df_reverts : list Revert.t)
    : list Enriched.t :=
  let reverted_ids := Revert.claim_id <$> df_reverts in
  (λ c, Enriched.mk c (bool_decide (Claim.id c ∈ reverted_ids)))
    <$> df_claims.

(** *** compute_npi_ndc_metrics *)

(** The four aggregations of a (npi, ndc) group. *)
Definition metrics_agg (kg : (string * string) * list Enriched.t)
    : MetricAgg.t :=
  MetricAgg.mk kg.1.1 kg.1.2
    (length kg.2)
    (length (filter (λ c, Enriched.is_reverted c = true) kg.2))
    (fsum (Enriched.price <$> kg.2))
    (fsum (Enriched.quantity <$> kg.2)).

(** The column [avg_price] added by [with_columns]. *)
Definition metrics_avg_price (r : MetricAgg.t) : num :=
  if gt0 (MetricAgg.total_quantity r)
  then round2 (fdiv (MetricAgg.total_price r) (MetricAgg.total_quantity r))
  else zero.

(** The [select]: [total_price] is rounded here, after [avg_price]
    was computed. *)
Definition metrics_select (ra : MetricAgg.t * num) : Metric.t :=
  Metric.mk (MetricAgg.npi ra.1) (MetricAgg.ndc ra.1)
    (MetricAgg.fills ra.1) (MetricAgg.reverted ra.1)
    ra.2 (round2 (MetricAgg.total_price ra.1)).

Definition compute_npi_ndc_metrics (df_claims : list Enriched.t)
    : list Metric.t :=
  let grouped :=
    group_by false (λ c, (Enriched.npi c, Enriched.ndc c)) df_claims in
  let agg := metrics_agg <$> grouped in
  let with_avg := (λ r, (r, metrics_avg_price r)) <$> agg in
  let selected := metrics_select <$> with_avg in
  sort (λ r, (Metric.npi r, Metric.ndc r)) (lex_leb str_leb str_leb) selected.

(** *** compute_chain_recommendations *)

(** The sums of a (ndc, chain) group and its [avg_price]: null
    unless [total_quantity > 0]. *)
Definition chain_group_agg (kg : (string * option string) * list WithChain.t)
    : ChainAgg.t :=
  let total_price := fsum (WithChain.price <$> kg.2) in
  let total_quantity := fsum (WithChain.quantity <$> kg.2) in
  ChainAgg.mk kg.1.1 kg.1.2 total_price total_quantity
    (if gt0 total_quantity
     then Some (round2 (fdiv total_price total_quantity))
     else None).

(** The frame [df_with_chain]. *)
Definition with_chain (df_claims : list Enriched.t)
    (df_pharmacies : list Pharmacy.t) : list WithChain.t :=
  join_left Enriched.npi Pharmacy.npi
    (λ c p, WithChain.mk c (Pharmacy.chain <$> p))
    df_claims df_pharmacies.

(** The frame [chain_agg]. *)
Definition chain_agg (df_claims : list Enriched.t)
    (df_pharmacies : list Pharmacy.t) : list ChainAgg.t :=
  let df_with_chain := with_chain df_claims df_pharmacies in
  let grouped :=
    group_by false (λ r, (WithChain.ndc r, WithChain.chain r)) df_with_chain in
  filter (λ r, is_Some (ChainAgg.avg_price r)) (chain_group_agg <$> grouped).

(** The sort key [["ndc", "avg_price", "chain"]]. *)
Definition chain_sort_key (r : ChainAgg.t)
    : string * (option num * option string) :=
  (ChainAgg.ndc r, (ChainAgg.avg_price r, ChainAgg.chain r)).

Definition chain_sort_leb
    : string * (option num * option string) →
      string * (option num * option string) → bool :=
  lex_leb str_leb
    (lex_leb (null_first_leb fleb) (null_first_leb str_leb)).

(** The Python [float(p)]: it raises on [None]. *)
Definition py_float (p : option num) : option num := p.

(** The [lambda] of [map_elements] on one row: the lists [names] and
    [prices] zipped into the list of chain objects. *)
Definition chain_objects (names : list (option string))
    (prices : list (option num)) : option (list ChainEntry.t) :=
  mapM (λ np : option string * option num,
          p ← py_float np.2; Some (ChainEntry.mk np.1 p))
       (zip names prices).

(** One row of [top_chains]: the first two structs of the group,
    split into [names] and [prices] and rebuilt by the [lambda]. *)
Definition top_chains_row (kg : string * list ChainAgg.t)
    : option DrugChains.t :=
  let chain :=
    take 2 ((λ r, (ChainAgg.chain r, ChainAgg.avg_price r)) <$> kg.2) in
  let names := fst <$> chain in
  let prices := snd <$> chain in
  DrugChains.mk kg.1 <$> chain_objects names prices.

(** The frame [chain_agg.sort(["ndc", "avg_price", "chain"])]. *)
Definition chain_agg_sorted (df_claims : list Enriched.t)
    (df_pharmacies : list Pharmacy.t) : list ChainAgg.t :=
  sort chain_sort_key chain_sort_leb (chain_agg df_claims df_pharmacies).

(** [None] when the [lambda] raises. *)
Definition compute_chain_recommendations (df_claims : list Enriched.t)
    (df_pharmacies : list Pharmacy.t) : option (list DrugChains.t) :=
  let sorted := chain_agg_sorted df_claims df_pharmacies in
  let grouped := group_by true ChainAgg.ndc sorted in
  rows ← mapM top_chains_row grouped;
  Some (sort DrugChains.ndc str_leb rows).

(** *** compute_quantity_insights *)

(** The function given to [map_groups]: the column [mode_qty] holds
    the quantity of the rows whose count is the group's maximum. *)
Definition mark_modes (g : list QtyCount.t) : list QtyCount.t :=
  let max_count := col_max (QtyCount.count <$> g) in
  (λ r, QtyCount.mk (QtyCount.ndc r) (QtyCount.quantity r) (QtyCount.count r)
          (if decide (QtyCount.count r = max_count)
           then Some (QtyCount.quantity r) else None)) <$> g.

(** The frame after [group_by(["ndc", "quantity"]).agg(count)]. *)
Definition quantity_counts (df_claims : list Enriched.t) : list QtyCount.t :=
  (λ kg : (string * num) * list Enriched.t,
     QtyCount.mk kg.1.1 kg.1.2 (length kg.2) None)
  <$> group_by false (λ c, (Enriched.ndc c, Enriched.quantity c)) df_claims.

(** The frame after [group_by("ndc").map_groups(...)]; [None] when
    [map_groups] raises, which it does when there is no claim. *)
Definition quantity_marked (df_claims : list Enriched.t)
    : option (list QtyCount.t) :=
  map_groups QtyCount.ndc mark_modes (quantity_counts df_claims).

(** The rest of the chain of calls, from the second [group_by("ndc")]
    on. *)
Definition quantity_modes (marked : list QtyCount.t) : list Insight.t :=
  let modes :=
    (λ kg : string * list QtyCount.t,
       Insight.mk kg.1
         (sort (λ q : num, q) fleb (drop_nulls (QtyCount.mode_qty <$> kg.2))))
    <$> group_by false QtyCount.ndc marked in
  let non_empty :=
    filter (λ r, 0 < length (Insight.most_prescribed_quantity r)) modes in
  sort Insight.ndc str_leb non_empty.

(** [None] when [map_groups] raises. *)
Definition compute_quantity_insights (df_claims : list Enriched.t)
    : option (list Insight.t) :=
  quantity_modes <$> quantity_marked df_claims.

(** *** run_pharmacy_analytics *)

(** The three steps write their files one after the other; a step that
    raises ends the call, and the files of the steps before it stay. *)
Definition run_pharmacy_analytics (df_claims : list Claim.t)
    (df_reverts : list Revert.t) (df_pharmacies : list Pharmacy.t)
    : Reports.t :=
  let df_claims := filter_to_pharmacy_dataset df_claims df_pharmacies in
  let df_claims := mark_reverted_claims df_claims df_reverts in
  let npi_metrics := compute_npi_ndc_metrics df_claims in
  match compute_chain_recommendations df_claims df_pharmacies with
  | None => Reports.mk (Some npi_metrics) None None
  | Some chains =>
      Reports.mk (Some npi_metrics) (Some chains)
        (compute_quantity_insights df_claims)
  end.
End processor.

End Processor.

(** ** main.py *)

Module Main.

(** [main]: the three loads, then the pipeline.  An exception of
    [load_pharmacies] ends the program before a report is written. *)
Definition main `{F : Float64} `{E : Engine} `{J : Joiner}
    (pharmacy : list Loader.CsvDir)
    (claims : list (Loader.Dir Claim.t))
    (reverts : list (Loader.Dir Revert.t)) : Loader.Error + Reports.t :=
  match Loader.load_pharmacies pharmacy with
  | inl e => inl e
  | inr df_pharmacies =>
      let df_claims := Loader.load_events Claim.id claims in
      let df_reverts := Loader.load_events Revert.id reverts in
      inr (Processor.run_pharmacy_analytics df_claims df_reverts df_pharmacies)
  end.

End Main.

(** ** Interpretations used to run the pipeline *)

Module Fixed.

(** [a / b] to the nearest integer, halves away from zero; [0] when
    [b] is [0]. *)
Definition div_nearest (a b : Z) : Z :=
  (Z.sgn a * Z.sgn b * ((2 * Z.abs a + Z.abs b) / (2 * Z.abs b)))%Z.

(** Float64 columns read as decimals with four places: the integer [n]
    stands for [n / 10000]. *)
#[export] Instance DecFloat : Float64 := {|
  num := Z;
  zero := 0%Z;
  fsum := foldl Z.add 0%Z;
  fdiv := λ a b, div_nearest (a * 10000) b;
  round2 := λ a, (div_nearest a 100 * 100)%Z;
  gt0 := λ a, (0 <? a)%Z;
  fleb := Z.leb;
|}.

(** A literal with two places: [dec 1234] is 12.34. *)
Definition dec (hundredths : Z) : Z := (hundredths * 100)%Z.

(** The engine that keeps every order it is given. *)
Definition keep : Engine := {| shuffle := λ A l, l |}.

(** The engine that reverses every order it is given. *)
Definition flip : Engine := {| shuffle := λ A l, reverse l |}.

(** The join that probes the left frame: the rows in its order. *)
Definition probe_left : Joiner := {| inner_order := λ A B C _ _ rows, rows |}.

(** The join that returns the rows the other way round. *)
Definition probe_back : Joiner :=
  {| inner_order := λ A B C _ _ rows, reverse rows |}.

End Fixed.

(** ** A sample input

    Four pharmacies of four chains and two drugs.  For drug [d1] the
    chains A, B and C all average 3.00 per unit (A over two claims), and
    chain D has total quantity 0.00; drug [d2] is only sold by chain D,
    with quantity 0.00.  Claim [c0] names an unknown pharmacy.  Claim
    [c1] is reverted twice. *)

Module Sample.
Import Fixed.

Definition pharmacies : list Pharmacy.t :=
  [Pharmacy.mk "1" "A"; Pharmacy.mk "2" "B";
   Pharmacy.mk "3" "C"; Pharmacy.mk "4" "D"].

Definition claim (id npi ndc : string) (price quantity : Z) : Claim.t :=
  Claim.mk id npi ndc (dec price) (dec quantity) "2024-03-01T10:00:00".

Definition claims : list Claim.t :=
  [claim "c0" "9" "d1" 10000 100;
   claim "c1" "1" "d1" 1000 200;
   claim "c2" "2" "d1" 900 300;
   claim "c3" "3" "d1" 600 200;
   claim "c4" "4" "d1" 100 0;
   claim "c5" "4" "d2" 100 0;
   claim "c6" "1" "d1" 500 300].

Definition reverts : list Revert.t :=
  [Revert.mk "r1" "c1" "2024-03-02T10:00:00";
   Revert.mk "r2" "c1" "2024-03-03T10:00:00"].

(** The enriched claims the aggregations receive. *)
Definition enriched : list Enriched.t :=
  Processor.mark_reverted_claims
    (Processor.filter_to_pharmacy_dataset (J:=probe_left) claims pharmacies)
    reverts.

(** One claim, and the directories that hold it in one file or in two. *)
Definition lone_claim : Claim.t := claim "c1" "1" "d1" 1000 200.

Definition one_file : list (Loader.Dir Claim.t) :=
  [Some [Some [lone_claim]]].

Definition two_files : list (Loader.Dir Claim.t) :=
  [Some [Some [lone_claim]; Some [lone_claim]]].

Definition same_file_twice : list (Loader.Dir Claim.t) :=
  [Some [Some [lone_claim; lone_claim]]].

Definition lone_pharmacy : list Loader.CsvDir :=
  [Some [Some (Loader.csv Loader.Dtype.Utf8 [Pharmacy.mk "1" "A"])]].

Definition no_reverts : list (Loader.Dir Revert.t) := [].

(** The metrics of the lone claim counted once, and counted twice. *)
Definition counted_once : list Metric.t :=
  [Metric.mk "1" "d1" 1 0 (dec 500) (dec 1000)].

Definition counted_twice : list Metric.t :=
  [Metric.mk "1" "d1" 2 0 (dec 500) (dec 2000)].

(** The sample as the loader finds it: the pharmacies in two files of
    one directory beside an unreadable file, the claims in two
    directories and a path that is no directory. *)
Definition pharmacy_dirs : list Loader.CsvDir :=
  [Some [Some (Loader.csv Loader.Dtype.Utf8 (take 2 pharmacies)); None;
         Some (Loader.csv Loader.Dtype.Utf8 (drop 2 pharmacies))]].

(** The same with a third file whose chains are numbers. *)
Definition numbered_chains : Loader.Csv :=
  Loader.csv Loader.Dtype.Int64 [Pharmacy.mk "5" "17"].

Definition mixed_pharmacy_dirs : list Loader.CsvDir :=
  pharmacy_dirs ++ [Some [Some numbered_chains]].

Definition claim_dirs : list (Loader.Dir Claim.t) :=
  [Some [Some (take 3 claims)]; None; Some [None; Some (drop 3 claims)]].

Definition revert_dirs : list (Loader.Dir Revert.t) :=
  [Some [Some reverts]].

(** A path that is no directory and a directory whose file is unreadable. *)
Definition unreadable_claims : list (Loader.Dir Claim.t) := [None; Some [None]].

Definition unreadable_pharmacies : list Loader.CsvDir :=
  [None; Some [None]].

(** The reports expected for the sample. *)
Definition metric_report : list Metric.t :=
  [Metric.mk "1" "d1" 2 1 (dec 300) (dec 1500);
   Metric.mk "2" "d1" 1 0 (dec 300) (dec 900);
   Metric.mk "3" "d1" 1 0 (dec 300) (dec 600);
   Metric.mk "4" "d1" 1 0 (dec 0) (dec 100);
   Metric.mk "4" "d2" 1 0 (dec 0) (dec 100)].

Definition chain_report : list DrugChains.t :=
  [DrugChains.mk "d1"
     [ChainEntry.mk (Some "A") (dec 300); ChainEntry.mk (Some "B") (dec 300)]].

Definition insight_report : list Insight.t :=
  [Insight.mk "d1" [dec 200; dec 300]; Insight.mk "d2" [dec 0]].

(** The chain report expected when the pharmacy frame is empty. *)
Definition unmatched_report : list DrugChains.t :=
  [DrugChains.mk "d1" [ChainEntry.mk None (dec 310)]].

(** Reverts that name no claim of the sample. *)
Definition stray_reverts : list Revert.t :=
  [Revert.mk "r8" "c8" "2024-03-04T10:00:00";
   Revert.mk "r9" "c9" "2024-03-05T10:00:00"].

End Sample.

(** ** Vocabulary of the properties *)

Module Spec.
Import Processor.

Section spec.
Context `{F : Float64}.

(** The enriched claims of the group (npi, ndc). *)
Definition metrics_group (df : list Enriched.t) (n d : string)
    : list Enriched.t :=
  filter (λ c, Enriched.npi c = n ∧ Enriched.ndc c = d) df.

(** The sort key of the metrics report. *)
Definition metric_key (r : Metric.t) : string * string :=
  (Metric.npi r, Metric.ndc r).

(** The joined claims of the group (ndc, chain). *)
Definition chain_group (df : list Enriched.t) (ph : list Pharmacy.t)
    (d : string) (c : option string) : list WithChain.t :=
  filter (λ r, WithChain.ndc r = d ∧ WithChain.chain r = c)
    (with_chain df ph).

(** Chain [c] is an eligible candidate for drug [d] at average unit
    price [p]: it has claims for the drug, their total quantity is
    positive, and [p] is the rounded quotient of the sums. *)
Definition candidate (df : list Enriched.t) (ph : list Pharmacy.t)
    (d : string) (c : option string) (p : num) : Prop :=
  let g := chain_group df ph d c in
  g ≠ [] ∧
  gt0 (fsum (WithChain.quantity <$> g)) = true ∧
  p = round2 (fdiv (fsum (WithChain.price <$> g))
                   (fsum (WithChain.quantity <$> g))).

(** The row [chain_agg] holds for a candidate. *)
Definition candidate_row (df : list Enriched.t) (ph : list Pharmacy.t)
    (d : string) (c : option string) (p : num) : ChainAgg.t :=
  let g := chain_group df ph d c in
  ChainAgg.mk d c (fsum (WithChain.price <$> g))
    (fsum (WithChain.quantity <$> g)) (Some p).

(** Candidates are ranked by price, then by chain name. *)
Definition rank_leb : num * option string → num * option string → bool :=
  lex_leb fleb (null_first_leb str_leb).

(** The price and name of a row of [chain_agg] (its price is not null:
    the rows without one were filtered out). *)
Definition rank_of (r : ChainAgg.t) : num * option string :=
  (default zero (ChainAgg.avg_price r), ChainAgg.chain r).

(** The price and name of a chain object. *)
Definition entry_key (e : ChainEntry.t) : num * option string :=
  (ChainEntry.avg_price e, ChainEntry.name e).

(** The chain object of a ranked candidate. *)
Definition entry_of (pc : num * option string) : ChainEntry.t :=
  ChainEntry.mk pc.2 pc.1.

(** [L] is the list of the candidates of drug [d], ranked. *)
Definition ranked (df : list Enriched.t) (ph : list Pharmacy.t)
    (d : string) (L : list (num * option string)) : Prop :=
  NoDup L ∧
  StronglySorted (le_of rank_leb) L ∧
  ∀ p c, (p, c) ∈ L ↔ candidate df ph d c p.

(** The number of claims of drug [d] with quantity [q]. *)
Definition qty_count (df : list Enriched.t) (d : string) (q : num) : nat :=
  length (filter (λ c, Enriched.ndc c = d ∧ Enriched.quantity c = q) df).

(** [q] is a most prescribed quantity of drug [d]: it occurs, and no
    quantity occurs more often. *)
Definition is_mode (df : list Enriched.t) (d : string) (q : num) : Prop :=
  0 < qty_count df d q ∧ ∀ q', qty_count df d q' ≤ qty_count df d q.

(** [L] is the list of the most prescribed quantities of drug [d],
    ascending, each once. *)
Definition sorted_modes (df : list Enriched.t) (d : string) (L : list num)
    : Prop :=
  NoDup L ∧
  StronglySorted (le_of fleb) L ∧
  ∀ q, q ∈ L ↔ is_mode df d q.

(** The rows of drug [d] in the frame of counts. *)
Definition drug_counts `{E : Engine} (df : list Enriched.t) (d : string)
    : list QtyCount.t :=
  filter (λ r, QtyCount.ndc r = d) (quantity_counts df).

(** The frames of the files the loader reads: the readable files of the
    directories that exist, in order. *)
Definition readable_files {A} (dirs : list (option (list (option A))))
    : list A :=
  d ← dirs;
  match d with
  | None => []
  | Some files => omap (λ f : option A, f) files
  end.

(** The frame after [map_groups] when it returns. *)
Definition marked_rows `{E : Engine} (df : list Enriched.t)
    : list QtyCount.t :=
  group_by false QtyCount.ndc (quantity_counts df) ≫= λ kg, mark_modes kg.2.

(** The metrics file [main] leaves, if any. *)
Definition metrics_file (o : Loader.Error + Reports.t)
    : option (list Metric.t) :=
  match o with
  | inl _ => None
  | inr reports => Reports.npi_metrics reports
  end.

(** No key occurs in two of the frames. *)
Definition disjoint_keys {A K} (key : A → K) (dfs : list (list A)) : Prop :=
  ∀ i j df1 df2 k,
    dfs !! i = Some df1 → dfs !! j = Some df2 →
    k ∈ key <$> df1 → k ∈ key <$> df2 → i = j.

(** The claims of drug [d]. *)
Definition drug_claims (df : list Enriched.t) (d : string) : list Enriched.t :=
  filter (λ c, Enriched.ndc c = d) df.

(** An enriched claim without its column [is_reverted]. *)
Definition clear_reverted (c : Enriched.t) : Enriched.t :=
  Enriched.mk (Enriched.claim c) false.

(** A joined row without the column [is_reverted]. *)
Definition clear_reverted_chain (r : WithChain.t) : WithChain.t :=
  WithChain.mk (clear_reverted (WithChain.row r)) (WithChain.chain r).

(** A metrics row without its column [reverted]. *)
Definition without_reverted (r : Metric.t)
    : string * string * nat * num * num :=
  (Metric.npi r, Metric.ndc r, Metric.fills r,
   Metric.avg_price r, Metric.total_price r).
End spec.
End Spec.

Import Processor Spec.

(** * Properties *)

(** ** Sort orders *)

Section orders.

Lemma ascii_compare_lt_trans a b c :
  Ascii.compare a b = Lt → Ascii.compare b c = Lt → Ascii.compare a c = Lt.
Proof.
  unfold Ascii.compare. rewrite !N.compare_lt_iff. apply N.lt_trans.
Qed.

Lemma string_compare_lt_trans s1 : ∀ s2 s3,
  String.compare s1 s2 = Lt → String.compare s2 s3 = Lt →
  String.compare s1 s3 = Lt.
Proof.
  induction s1 as [|a s1 IH]; intros [|b s2] [|c s3]; simpl; try done.
  destruct (Ascii.compare a b) eqn:Hab; try done;
    destruct (Ascii.compare b c) eqn:Hbc; try done; intros H1 H2.
  - apply Ascii.compare_eq_iff in Hab, Hbc. subst.
    assert (Ascii.compare c c = Eq) as ->; [|by eapply IH].
    unfold Ascii.compare. apply N.compare_refl.
  - apply Ascii.compare_eq_iff in Hab. subst. by rewrite Hbc.
  - apply Ascii.compare_eq_iff in Hbc. subst. by rewrite Hab.
  - by rewrite (ascii_compare_lt_trans _ _ _ Hab Hbc).
Qed.

#[global] Instance str_leb_order : LebOrder str_leb.
Proof.
  split; unfold str_leb.
  - apply String.leb_total.
  - intros x y z. unfold String.leb.
    destruct (String.compare x y) eqn:Hxy; try done;
      destruct (String.compare y z) eqn:Hyz; try done; intros _ _.
    + apply String.compare_eq_iff in Hxy. subst. by rewrite Hyz.
    + apply String.compare_eq_iff in Hxy. subst. by rewrite Hyz.
    + apply String.compare_eq_iff in Hyz. subst. by rewrite Hxy.
    + by rewrite (string_compare_lt_trans _ _ _ Hxy Hyz).
  - apply String.leb_antisym.
Qed.

#[global] Instance fleb_order `{Float64Laws} : LebOrder fleb.
Proof. split; [apply fleb_total | apply fleb_trans | apply fleb_antisym]. Qed.

#[global] Instance lex_leb_order {A B} (leA : A → A → bool) (leB : B → B → bool) :
  LebOrder leA → LebOrder leB → LebOrder (lex_leb leA leB).
Proof.
  intros HA HB. split; unfold lex_leb.
  - intros [a1 b1] [a2 b2]; simpl.
    destruct (leb_total (leb:=leA) a1 a2) as [H|H],
             (leb_total (leb:=leB) b1 b2) as [H'|H']; rewrite ?H, ?H';
      destruct (leA a1 a2), (leA a2 a1); auto.
  - intros [a1 b1] [a2 b2] [a3 b3]; simpl.
    destruct (leA a1 a2) eqn:H12; [|done].
    destruct (leA a2 a3) eqn:H23; [|by destruct (leA a2 a1)].
    rewrite (leb_trans _ _ _ H12 H23).
    destruct (leA a2 a1) eqn:H21, (leA a3 a2) eqn:H32; intros H1 H2.
    + rewrite (leb_trans _ _ _ H32 H21). exact (leb_trans _ _ _ H1 H2).
    + destruct (leA a3 a1) eqn:H31; [|done].
      by rewrite (leb_trans _ _ _ H31 H12) in H32.
    + destruct (leA a3 a1) eqn:H31; [|done].
      by rewrite (leb_trans _ _ _ H23 H31) in H21.
    + destruct (leA a3 a1) eqn:H31; [|done].
      by rewrite (leb_trans _ _ _ H31 H12) in H32.
  - intros [a1 b1] [a2 b2]; simpl.
    destruct (leA a1 a2) eqn:H12; [|done].
    destruct (leA a2 a1) eqn:H21; [|done].
    intros H1 H2. f_equal; by apply leb_antisym.
Qed.

#[global] Instance null_first_leb_order {A} (leA : A → A → bool) :
  LebOrder leA → LebOrder (null_first_leb leA).
Proof.
  intros HA. split.
  - intros [a|] [b|]; simpl; auto. apply leb_total.
  - intros [a|] [b|] [c|]; simpl; try done. apply leb_trans.
  - intros [a|] [b|]; simpl; try done. intros. f_equal. by apply leb_antisym.
Qed.

(** The relation a sort key induces on rows. *)
Lemma key_le_total {A K} (key : A → K) (leb : K → K → bool) :
  LebOrder leb → Total (λ x y, le_of leb (key x) (key y)).
Proof. intros H x y. apply leb_total. Qed.

Lemma key_le_trans {A K} (key : A → K) (leb : K → K → bool) :
  LebOrder leb → Transitive (λ x y, le_of leb (key x) (key y)).
Proof. intros H x y z. apply leb_trans. Qed.

End orders.

(** ** Data-frame operations *)

Section list_facts.
Context {A B : Type}.

Lemma NoDup_fmap_inj_on (f : A → B) (l : list A) x y :
  NoDup (f <$> l) → x ∈ l → y ∈ l → f x = f y → x = y.
Proof.
  induction l as [|a l IH]; csimpl; [by intros _ ?%elem_of_nil|].
  rewrite NoDup_cons, !elem_of_cons, list_elem_of_fmap.
  intros [Ha Hl] [->|Hx] [->|Hy] Hf; eauto; exfalso; apply Ha; eauto.
Qed.

(** Two lists in ascending key order, without repeated keys and with
    the same rows, are the same list. *)
Lemma sorted_ext (key : A → B) (leb : B → B → bool) `{!LebOrder leb} l1 l2 :
  StronglySorted (λ x y, le_of leb (key x) (key y)) l1 →
  StronglySorted (λ x y, le_of leb (key x) (key y)) l2 →
  NoDup (key <$> l1) → NoDup (key <$> l2) →
  (∀ x, x ∈ l1 ↔ x ∈ l2) →
  l1 = l2.
Proof.
  intros Hs1 Hs2 Hn1 Hn2 Hel.
  eapply StronglySorted_unique_strong; [|exact Hs1|exact Hs2|].
  - intros x y Hx Hy%Hel Hxy Hyx.
    apply (NoDup_fmap_inj_on key l1); [done..|].
    by apply (leb_antisym (leb:=leb)).
  - apply NoDup_Permutation; eauto using NoDup_fmap_1.
Qed.

Lemma col_max_ge (xs : list nat) x : x ∈ xs → x ≤ col_max xs.
Proof.
  induction xs as [|y xs IH]; simpl; [by intros ?%elem_of_nil|].
  rewrite elem_of_cons. intros [->|?%IH]; lia.
Qed.

Lemma col_max_elem (xs : list nat) : xs ≠ [] → col_max xs ∈ xs.
Proof.
  induction xs as [|y xs IH]; simpl; [done|intros _].
  destruct xs as [|z xs]; [simpl; rewrite Nat.max_0_r; left|].
  destruct (Nat.max_spec y (col_max (z :: xs))) as [[_ ->]|[_ ->]].
  - right. by apply IH.
  - left.
Qed.

Lemma col_max_ext (xs ys : list nat) :
  (∀ x, x ∈ xs ↔ x ∈ ys) → col_max xs = col_max ys.
Proof.
  intros Hel. destruct xs as [|x xs], ys as [|y ys]; [done|..].
  - destruct (not_elem_of_nil y). apply Hel. left.
  - destruct (not_elem_of_nil x). apply Hel. left.
  - apply Nat.le_antisymm.
    + apply col_max_ge, Hel, col_max_elem. done.
    + apply col_max_ge, Hel, col_max_elem. done.
Qed.
End list_facts.

Section frame_facts.
Context `{E : Engine} {HE : EngineLaws E}.
Context {A : Type}.

Lemma sort_perm {K} (key : A → K) leb df : sort key leb df ≡ₚ df.
Proof. unfold sort. by rewrite merge_sort_Permutation, shuffle_perm. Qed.

Lemma elem_of_sort {K} (key : A → K) leb df x : x ∈ sort key leb df ↔ x ∈ df.
Proof. by rewrite sort_perm. Qed.

Lemma sort_sorted {K} (key : A → K) leb `{!LebOrder leb} df :
  StronglySorted (λ x y, le_of leb (key x) (key y)) (sort key leb df).
Proof.
  apply StronglySorted_merge_sort;
    [by apply key_le_trans | by apply key_le_total].
Qed.

Context {K : Type} `{!EqDecision K}.

Lemma elem_of_first_seen (ks : list K) k : k ∈ first_seen ks ↔ k ∈ ks.
Proof.
  induction ks as [|k' ks IH]; simpl; [done|].
  rewrite !elem_of_cons, list_elem_of_filter, IH.
  destruct (decide (k = k')); naive_solver.
Qed.

Lemma NoDup_first_seen (ks : list K) : NoDup (first_seen ks).
Proof.
  induction ks as [|k ks IH]; simpl; constructor.
  - rewrite list_elem_of_filter. naive_solver.
  - by apply NoDup_filter.
Qed.

Lemma partition_by_keys (key : A → K) df :
  (partition_by key df).*1 = first_seen (key <$> df).
Proof.
  unfold partition_by. rewrite <-list_fmap_compose.
  induction (first_seen _); csimpl; congruence.
Qed.

Lemma elem_of_partition_by (key : A → K) df k g :
  (k, g) ∈ partition_by key df ↔
  k ∈ key <$> df ∧ g = filter (λ r, key r = k) df.
Proof.
  unfold partition_by. rewrite list_elem_of_fmap.
  setoid_rewrite elem_of_first_seen. naive_solver.
Qed.

Lemma group_by_perm b (key : A → K) df :
  group_by b key df ≡ₚ partition_by key df.
Proof. destruct b; simpl; [done|apply shuffle_perm]. Qed.

Lemma elem_of_group_by b (key : A → K) df k g :
  (k, g) ∈ group_by b key df ↔
  k ∈ key <$> df ∧ g = filter (λ r, key r = k) df.
Proof. by rewrite group_by_perm, elem_of_partition_by. Qed.

Lemma NoDup_group_by_keys b (key : A → K) df :
  NoDup (group_by b key df).*1.
Proof.
  rewrite group_by_perm, partition_by_keys. apply NoDup_first_seen.
Qed.

(** Every row of a group carries the group's key, and a group is not
    empty. *)
Lemma group_by_nonempty b (key : A → K) df k g :
  (k, g) ∈ group_by b key df → g ≠ [].
Proof.
  rewrite elem_of_group_by, list_elem_of_fmap.
  intros [(r & -> & Hr) ->] Hnil.
  apply (not_elem_of_nil r). rewrite <-Hnil.
  by apply list_elem_of_filter.
Qed.
End frame_facts.

(** A sort cancels the order its input came in: the engines may differ
    when the sort keys are pairwise distinct. *)
Lemma sort_ext {A K} (E1 E2 : Engine) `{!EngineLaws E1, !EngineLaws E2}
    (key : A → K) (leb : K → K → bool) `{!LebOrder leb} (l1 l2 : list A) :
  NoDup (key <$> l1) → NoDup (key <$> l2) →
  (∀ x, x ∈ l1 ↔ x ∈ l2) →
  sort (E:=E1) key leb l1 = sort (E:=E2) key leb l2.
Proof.
  intros Hn1 Hn2 Hel. apply (sorted_ext key leb).
  - by apply sort_sorted.
  - by apply sort_sorted.
  - by rewrite sort_perm.
  - by rewrite sort_perm.
  - intros x. by rewrite !elem_of_sort.
Qed.

(** ** compute_npi_ndc_metrics *)

Section metrics_facts.
Context `{F : Float64} `{E : Engine} {HE : EngineLaws E}.
Implicit Types df : list Enriched.t.

Lemma metrics_group_filter df n d :
  filter (λ c, (Enriched.npi c, Enriched.ndc c) = (n, d)) df
  = metrics_group df n d.
Proof. apply list_filter_iff. naive_solver. Qed.

Lemma metrics_group_nonempty df c :
  c ∈ df → c ∈ metrics_group df (Enriched.npi c) (Enriched.ndc c).
Proof. intros. by apply list_elem_of_filter. Qed.

(** The rows of the report: one per key that occurs, computed from all
    the claims that carry the key. *)
Lemma elem_of_metrics df row :
  row ∈ compute_npi_ndc_metrics df ↔
  ∃ c, c ∈ df ∧
    let a := metrics_agg ((Enriched.npi c, Enriched.ndc c),
                          metrics_group df (Enriched.npi c) (Enriched.ndc c)) in
    row = metrics_select (a, metrics_avg_price a).
Proof.
  unfold compute_npi_ndc_metrics. rewrite elem_of_sort.
  rewrite <-!list_fmap_compose, list_elem_of_fmap. split.
  - intros ([[n d] g] & -> & Hg).
    apply elem_of_group_by in Hg as [(c & [= -> ->] & Hc)%list_elem_of_fmap ->].
    exists c. by rewrite metrics_group_filter.
  - intros (c & Hc & ->). eexists (_, _). split; [done|].
    apply elem_of_group_by. rewrite metrics_group_filter.
    split; [|done]. apply list_elem_of_fmap. eauto.
Qed.

Lemma metrics_keys_NoDup df :
  NoDup (metric_key <$> compute_npi_ndc_metrics df).
Proof.
  unfold compute_npi_ndc_metrics. rewrite sort_perm, <-!list_fmap_compose.
  erewrite list_fmap_ext; [apply (NoDup_group_by_keys false)|].
  by intros i [[n d] g] _.
Qed.

Lemma metrics_sorted df :
  StronglySorted
    (λ r1 r2, le_of (lex_leb str_leb str_leb) (metric_key r1) (metric_key r2))
    (compute_npi_ndc_metrics df).
Proof. apply (sort_sorted metric_key). apply _. Qed.

End metrics_facts.


(** ** compute_chain_recommendations *)

Section sorted_facts.
Context {A : Type}.

Lemma StronglySorted_filter (R : relation A) (P : A → Prop)
    `{!∀ x, Decision (P x)} l :
  StronglySorted R l → StronglySorted R (filter P l).
Proof.
  induction 1 as [|x l Hl IH Hx]; [constructor|].
  rewrite filter_cons. case_decide; [|done].
  constructor; [done|].
  apply Forall_forall. intros y [_ Hy]%list_elem_of_filter.
  by eapply Forall_forall in Hx.
Qed.

Lemma StronglySorted_take (R : relation A) n l :
  StronglySorted R l → StronglySorted R (take n l).
Proof.
  intros Hl. revert n.
  induction Hl as [|x l Hl IH Hx]; intros [|n]; simpl; try constructor.
  - apply IH.
  - apply Forall_forall. intros y Hy.
    eapply Forall_forall in Hx; [done|].
    by eapply subseteq_take.
Qed.

(** Rows in key order that all satisfy [P] are in order for the
    comparison restricted to [P]. *)
Lemma StronglySorted_restrict (R : relation A) (P : A → Prop) l :
  StronglySorted R l → Forall P l →
  StronglySorted (λ x y, P x ∧ P y ∧ R x y) l.
Proof.
  induction 1 as [|x l Hl IH Hx]; [constructor|].
  rewrite Forall_cons. intros [HPx HPl]. constructor; [by apply IH|].
  rewrite Forall_forall in Hx, HPl |- *. naive_solver.
Qed.

Lemma NoDup_fmap_filter {B} (f : A → B) (P : A → Prop)
    `{!∀ x, Decision (P x)} l :
  NoDup (f <$> l) → NoDup (f <$> filter P l).
Proof.
  intros Hl. eapply sublist_NoDup; [done|].
  apply fmap_sublist, sublist_filter.
Qed.

(** A key that refines a key without repetition has no repetition. *)
Lemma NoDup_fmap_finer {B C} (f : A → B) (g : A → C) l :
  (∀ x y, x ∈ l → y ∈ l → g x = g y → f x = f y) →
  NoDup (f <$> l) → NoDup (g <$> l).
Proof.
  intros Hfg Hl. apply NoDup_fmap_2_strong; [|by eapply NoDup_fmap_1].
  intros x y Hx Hy Hg. eapply NoDup_fmap_inj_on; eauto.
Qed.

Lemma mapM_total {B} (f : A → option B) (g : A → B) (l : list A) :
  (∀ x, x ∈ l → f x = Some (g x)) → mapM f l = Some (g <$> l).
Proof.
  intros Hf. apply mapM_Some_2, Forall2_fmap_r, Forall_Forall2_diag.
  by apply Forall_forall.
Qed.

Lemma filter_fmap {B} (f : A → B) (P : B → Prop) `{!∀ y, Decision (P y)}
    (l : list A) :
  filter P (f <$> l) = f <$> filter (λ x, P (f x)) l.
Proof.
  induction l as [|x l IH]; [done|]. csimpl.
  rewrite !filter_cons, IH. by case_decide.
Qed.
End sorted_facts.

Section chain_facts.
Context `{F : Float64} {HF : Float64Laws F} `{E : Engine} {HE : EngineLaws E}.
Implicit Types (df : list Enriched.t) (ph : list Pharmacy.t).

Lemma chain_group_filter df ph d c :
  filter (λ r, (WithChain.ndc r, WithChain.chain r) = (d, c)) (with_chain df ph)
  = chain_group df ph d c.
Proof. apply list_filter_iff. naive_solver. Qed.

Lemma elem_of_chain_agg df ph r :
  r ∈ chain_agg df ph ↔
  ∃ d c p, candidate df ph d c p ∧ r = candidate_row df ph d c p.
Proof.
  unfold chain_agg. rewrite list_elem_of_filter, list_elem_of_fmap. split.
  - intros [Havg ([[d c] g] & -> & Hg)].
    apply elem_of_group_by in Hg as Hg'. destruct Hg' as [_ Heq].
    apply group_by_nonempty in Hg. subst g.
    rewrite chain_group_filter in Hg, Havg |- *.
    unfold chain_group_agg in *; simpl in *.
    destruct (gt0 _) eqn:Hq; [|by destruct Havg as [? [=]]].
    by eexists d, c, _.
  - intros (d & c & p & (Hne & Hq & ->) & ->).
    unfold candidate_row. split; [done|].
    exists ((d, c), chain_group df ph d c). split.
    + unfold chain_group_agg; simpl. by rewrite Hq.
    + apply elem_of_group_by. rewrite chain_group_filter. split; [|done].
      destruct (chain_group df ph d c) as [|r g] eqn:Hg; [done|].
      assert (r ∈ chain_group df ph d c) as Hr by (rewrite Hg; left).
      apply list_elem_of_filter in Hr as [[<- <-] Hr].
      apply list_elem_of_fmap. eauto.
Qed.

Lemma chain_agg_keys_NoDup df ph :
  NoDup ((λ r, (ChainAgg.ndc r, ChainAgg.chain r)) <$> chain_agg df ph).
Proof.
  unfold chain_agg. apply NoDup_fmap_filter.
  rewrite <-list_fmap_compose.
  erewrite list_fmap_ext; [apply (NoDup_group_by_keys false)|].
  by intros i [[d c] g] _.
Qed.

Lemma chain_agg_sort_keys_NoDup df ph :
  NoDup (chain_sort_key <$> chain_agg df ph).
Proof.
  eapply NoDup_fmap_finer; [|apply chain_agg_keys_NoDup].
  unfold chain_sort_key. by intros x y _ _ [= -> _ ->].
Qed.

Lemma elem_of_chain_agg_sorted df ph r :
  r ∈ chain_agg_sorted df ph ↔
  ∃ d c p, candidate df ph d c p ∧ r = candidate_row df ph d c p.
Proof. unfold chain_agg_sorted. by rewrite elem_of_sort, elem_of_chain_agg. Qed.

Lemma chain_agg_sorted_priced df ph r :
  r ∈ chain_agg_sorted df ph →
  ChainAgg.avg_price r = Some (rank_of r).1.
Proof. by intros (d & c & p & _ & ->)%elem_of_chain_agg_sorted. Qed.

(** The rows of one drug in the sorted frame are its ranked candidates. *)
Lemma ranked_chain_agg_sorted df ph d :
  ranked df ph d
    (rank_of <$> filter (λ r, ChainAgg.ndc r = d) (chain_agg_sorted df ph)).
Proof.
  split_and!.
  - eapply NoDup_fmap_finer; last first.
    { apply NoDup_fmap_filter. unfold chain_agg_sorted.
      rewrite sort_perm. apply chain_agg_keys_NoDup. }
    intros x y [Hx Hx']%list_elem_of_filter [Hy Hy']%list_elem_of_filter.
    unfold rank_of. intros [= _ ->]. congruence.
  - eapply StronglySorted_fmap; last first.
    { apply (StronglySorted_restrict
        (λ x y, le_of chain_sort_leb (chain_sort_key x) (chain_sort_key y))
        (λ r, ChainAgg.ndc r = d ∧ is_Some (ChainAgg.avg_price r))).
      - apply StronglySorted_filter, (sort_sorted chain_sort_key). apply _.
      - apply Forall_forall. intros r [Hd Hr]%list_elem_of_filter.
        split; [done|]. rewrite (chain_agg_sorted_priced _ _ _ Hr). eauto. }
    intros x y ([Hx [p Hp]] & [Hy [q Hq]] & Hxy). revert Hxy.
    unfold le_of, chain_sort_leb, chain_sort_key, rank_leb, rank_of.
    rewrite Hx, Hy, Hp, Hq. unfold lex_leb at 1; simpl.
    by destruct (leb_total (leb:=str_leb) d d) as [->| ->].
  - intros p c. rewrite list_elem_of_fmap. split.
    + intros (r & Hr & [<- Hin]%list_elem_of_filter).
      apply elem_of_chain_agg_sorted in Hin as (d' & c' & p' & Hc & ->).
      by injection Hr as -> ->.
    + intros Hc. exists (candidate_row df ph d c p). split; [done|].
      apply list_elem_of_filter. split; [done|].
      apply elem_of_chain_agg_sorted. eauto.
Qed.

Lemma ranked_unique df ph d L1 L2 :
  ranked df ph d L1 → ranked df ph d L2 → L1 = L2.
Proof.
  intros (Hn1 & Hs1 & Hel1) (Hn2 & Hs2 & Hel2).
  apply (sorted_ext (λ x, x) rank_leb); rewrite ?list_fmap_id; try done.
  intros [p c]. by rewrite Hel1, Hel2.
Qed.

(** What the [lambda] of [map_elements] returns on a group all of whose
    rows have a price: it does not raise. *)
Lemma top_chains_row_priced (d : string) (g : list ChainAgg.t) :
  Forall (λ r, ChainAgg.avg_price r = Some (rank_of r).1) g →
  top_chains_row (d, g)
  = Some (DrugChains.mk d (entry_of <$> take 2 (rank_of <$> g))).
Proof.
  intros Hg. unfold top_chains_row, chain_objects; simpl.
  rewrite zip_fst_snd.
  rewrite (mapM_total _ (λ np, ChainEntry.mk np.1 (default zero np.2))).
  { simpl. by rewrite <-!fmap_take, <-!list_fmap_compose. }
  intros np [r [-> Hr]]%subseteq_take%list_elem_of_fmap.
  eapply Forall_forall in Hg; [|done].
  simpl. unfold py_float. by rewrite Hg.
Qed.

(** The report: the call returns, its rows are in ascending order of
    [ndc] without a repeated [ndc], and the row of a drug lists the
    first two of its ranked candidates. *)
Lemma chain_recommendations_spec df ph :
  ∃ out, compute_chain_recommendations df ph = Some out ∧
    StronglySorted
      (λ r1 r2, le_of str_leb (DrugChains.ndc r1) (DrugChains.ndc r2)) out ∧
    NoDup (DrugChains.ndc <$> out) ∧
    ∀ row, row ∈ out ↔
      ∃ L, L ≠ [] ∧ ranked df ph (DrugChains.ndc row) L ∧
           DrugChains.chain row = entry_of <$> take 2 L.
Proof.
  set (S := chain_agg_sorted df ph).
  set (top_row := λ kg : string * list ChainAgg.t,
         DrugChains.mk kg.1 (entry_of <$> take 2 (rank_of <$> kg.2))).
  exists (sort DrugChains.ndc str_leb (top_row <$> partition_by ChainAgg.ndc S)).
  split_and!.
  - unfold compute_chain_recommendations. fold S. simpl (group_by true _ _).
    rewrite (mapM_total _ top_row); [done|].
    intros [d g] [_ ->]%elem_of_partition_by. apply top_chains_row_priced.
    apply Forall_forall. intros r [_ Hr]%list_elem_of_filter.
    by apply (chain_agg_sorted_priced df ph).
  - apply (sort_sorted DrugChains.ndc). apply _.
  - rewrite sort_perm, <-list_fmap_compose.
    erewrite list_fmap_ext; [apply (NoDup_group_by_keys true)|].
    by intros i [d g] _.
  - intros row. rewrite elem_of_sort, list_elem_of_fmap. split.
    + intros ([d g] & -> & [Hd ->]%elem_of_partition_by). simpl.
      eexists. split_and!; [|apply ranked_chain_agg_sorted|done].
      apply list_elem_of_fmap in Hd as (r & -> & Hr).
      intros Hnil%fmap_nil_inv.
      apply (not_elem_of_nil r). rewrite <-Hnil. by apply list_elem_of_filter.
    + intros (L & Hne & HL & Hrow). destruct row as [d ch]; simpl in *.
      exists (d, filter (λ r, ChainAgg.ndc r = d) S). split.
      * unfold top_row; simpl. f_equal. rewrite Hrow. do 2 f_equal.
        eapply ranked_unique; [done|apply ranked_chain_agg_sorted].
      * apply elem_of_partition_by. split; [|done].
        destruct L as [|[p c] L]; [done|]. destruct HL as (_ & _ & Hel).
        assert (candidate df ph d c p) by (apply Hel; left).
        apply list_elem_of_fmap. exists (candidate_row df ph d c p).
        split; [done|]. apply elem_of_chain_agg_sorted; eauto.
Qed.

End chain_facts.


(** ** compute_quantity_insights *)

Section filter_facts.
Context {A : Type}.

Lemma filter_all (P : A → Prop) `{!∀ x, Decision (P x)} (l : list A) :
  Forall P l → filter P l = l.
Proof.
  induction 1 as [|x l Hx Hl IH]; [done|].
  by rewrite filter_cons_True, IH.
Qed.

Lemma filter_none (P : A → Prop) `{!∀ x, Decision (P x)} (l : list A) :
  Forall (λ x, ¬ P x) l → filter P l = [].
Proof.
  induction 1 as [|x l Hx Hl IH]; [done|].
  by rewrite filter_cons_False.
Qed.

Lemma filter_nonempty (P : A → Prop) `{!∀ x, Decision (P x)} (l : list A) :
  0 < length (filter P l) ↔ ∃ x, x ∈ l ∧ P x.
Proof.
  split.
  - destruct (filter P l) as [|x l'] eqn:Hl; simpl; [lia|intros _].
    assert (x ∈ filter P l) as [? ?]%list_elem_of_filter by (rewrite Hl; left).
    eauto.
  - intros (x & Hx & HP).
    assert (x ∈ filter P l) as Hin by by apply list_elem_of_filter.
    destruct (filter P l); [by apply elem_of_nil in Hin|simpl; lia].
Qed.

End filter_facts.

Section group_facts.
Context {A B K : Type} `{!EqDecision K}.

(** Rows made group by group and concatenated: the rows with key [k]
    are the rows made from the group of [k]. *)
Lemma filter_bind_groups (key : B → K) (f : list A → list B)
    (gs : list (K * list A)) k g :
  (∀ k' g', (k', g') ∈ gs → Forall (λ r, key r = k') (f g')) →
  NoDup gs.*1 → (k, g) ∈ gs →
  filter (λ r, key r = k) (gs ≫= λ kg, f kg.2) = f g.
Proof.
  intros Hkey Hnd Hin.
  assert (∀ gs' : list (K * list A), gs' ⊆ gs → k ∉ gs'.*1 →
          filter (λ r, key r = k) (gs' ≫= λ kg, f kg.2) = []) as Hnone.
  { intros gs' Hsub Hk. apply filter_none, Forall_forall.
    intros r ([k' g'] & Hr & Hg')%list_elem_of_bind Hrk. apply Hk.
    eapply Forall_forall in Hr; [|by apply Hkey, Hsub]. simpl in *.
    apply list_elem_of_fmap. exists (k', g'). simpl. split; [congruence|done]. }
  induction gs as [|[k' g'] gs IH]; [by apply elem_of_nil in Hin|].
  rewrite bind_cons, filter_app. csimpl in *.
  apply NoDup_cons in Hnd as [Hk' Hnd].
  apply elem_of_cons in Hin as [[= <- <-]|Hin].
  - rewrite filter_all by (apply Hkey; left).
    rewrite Hnone; [by rewrite app_nil_r| |done].
    intros x Hx. apply elem_of_cons. by right.
  - rewrite filter_none.
    + apply IH; [|done..|].
      * intros k'' g'' Hg''. apply Hkey, elem_of_cons. by right.
      * intros gs' Hsub. apply Hnone. intros x Hx%Hsub.
        apply elem_of_cons. by right.
    + eapply Forall_impl; [apply Hkey; left|]. simpl. intros r -> ->.
      apply Hk', list_elem_of_fmap. by exists (k, g).
Qed.
End group_facts.

Section quantity_facts.
Context `{F : Float64} {HF : Float64Laws F} `{E : Engine} {HE : EngineLaws E}.
Implicit Types df : list Enriched.t.

Lemma qty_group_filter df d q :
  length (filter (λ c, (Enriched.ndc c, Enriched.quantity c) = (d, q)) df)
  = qty_count df d q.
Proof. unfold qty_count. f_equal. apply list_filter_iff. naive_solver. Qed.

Lemma qty_count_pos df d q :
  0 < qty_count df d q ↔
  ∃ c, c ∈ df ∧ Enriched.ndc c = d ∧ Enriched.quantity c = q.
Proof. unfold qty_count. rewrite filter_nonempty. naive_solver. Qed.

Lemma elem_of_quantity_counts df r :
  r ∈ quantity_counts df ↔
  ∃ d q, 0 < qty_count df d q ∧ r = QtyCount.mk d q (qty_count df d q) None.
Proof.
  unfold quantity_counts. rewrite list_elem_of_fmap. split.
  - intros ([[d q] g] & -> & [(c & [= -> ->] & Hc)%list_elem_of_fmap ->]%elem_of_group_by).
    simpl. rewrite qty_group_filter. eexists _, _. split; [|done].
    apply qty_count_pos. eauto.
  - intros (d & q & (c & Hc & <- & <-)%qty_count_pos & ->).
    eexists (_, _). split; [|apply elem_of_group_by; split; [|done]].
    + simpl. by rewrite qty_group_filter.
    + apply list_elem_of_fmap. eauto.
Qed.

Lemma quantity_counts_keys_NoDup df :
  NoDup ((λ r, (QtyCount.ndc r, QtyCount.quantity r)) <$> quantity_counts df).
Proof.
  unfold quantity_counts. rewrite <-list_fmap_compose.
  erewrite list_fmap_ext; [apply (NoDup_group_by_keys false)|].
  by intros i [[d q] g] _.
Qed.

(** The quantities [map_groups] marks are the most prescribed ones. *)
Lemma drug_counts_max df d r :
  r ∈ drug_counts df d →
  QtyCount.count r = col_max (QtyCount.count <$> drug_counts df d) ↔
  is_mode df d (QtyCount.quantity r).
Proof.
  intros Hr.
  assert (∀ r', r' ∈ drug_counts df d →
    0 < QtyCount.count r' ∧
    QtyCount.count r' = qty_count df d (QtyCount.quantity r')) as Hcount.
  { intros r' [<- (d' & q' & Hpos & ->)%elem_of_quantity_counts]%list_elem_of_filter.
    done. }
  assert (∀ q', 0 < qty_count df d q' →
    qty_count df d q' ∈ QtyCount.count <$> drug_counts df d) as Hin.
  { intros q' Hq'. apply list_elem_of_fmap.
    exists (QtyCount.mk d q' (qty_count df d q') None). split; [done|].
    apply list_elem_of_filter. split; [done|].
    apply elem_of_quantity_counts. eauto. }
  destruct (Hcount r Hr) as [Hpos Hrq]. split.
  - intros Hmax. split; [by rewrite <-Hrq|]. intros q'.
    destruct (decide (0 < qty_count df d q')) as [Hq'|]; [|lia].
    rewrite <-Hrq, Hmax. by apply col_max_ge, Hin.
  - intros [_ Hmode]. apply Nat.le_antisymm.
    + apply col_max_ge, list_elem_of_fmap. eauto.
    + assert (col_max (QtyCount.count <$> drug_counts df d)
              ∈ QtyCount.count <$> drug_counts df d) as Hmax.
      { apply col_max_elem. intros Hnil%fmap_nil_inv.
        rewrite Hnil in Hr. by apply elem_of_nil in Hr. }
      apply list_elem_of_fmap in Hmax as (r' & -> & Hr').
      destruct (Hcount r' Hr') as [_ ->]. rewrite Hrq. apply Hmode.
Qed.

Lemma mark_modes_ndc (g : list QtyCount.t) (d : string) :
  Forall (λ r, QtyCount.ndc r = d) g →
  Forall (λ r, QtyCount.ndc r = d) (mark_modes g).
Proof.
  intros Hg. unfold mark_modes. rewrite Forall_fmap.
  eapply Forall_impl; [done|]. by intros r Hr.
Qed.

(** The marked rows of one drug. *)
Lemma quantity_marked_drug df d :
  d ∈ QtyCount.ndc <$> quantity_counts df →
  filter (λ r, QtyCount.ndc r = d) (marked_rows df)
  = mark_modes (drug_counts df d).
Proof.
  intros Hd. unfold marked_rows.
  apply (filter_bind_groups QtyCount.ndc mark_modes).
  - intros k g [_ ->]%elem_of_group_by. apply mark_modes_ndc, Forall_forall.
    by intros r [? _]%list_elem_of_filter.
  - apply NoDup_group_by_keys.
  - by apply elem_of_group_by.
Qed.

Lemma quantity_counts_ndcs df d :
  d ∈ QtyCount.ndc <$> quantity_counts df ↔
  ∃ c, c ∈ df ∧ Enriched.ndc c = d.
Proof.
  rewrite list_elem_of_fmap. setoid_rewrite elem_of_quantity_counts. split.
  - intros (r & -> & d' & q & (c & ? & ? & ?)%qty_count_pos & ->). eauto.
  - intros (c & Hc & <-). eexists. split; [|eexists _, _; split; [|done]].
    + done.
    + apply qty_count_pos. eauto.
Qed.

Lemma quantity_marked_ndcs df d :
  d ∈ QtyCount.ndc <$> marked_rows df ↔
  ∃ c, c ∈ df ∧ Enriched.ndc c = d.
Proof.
  rewrite <-quantity_counts_ndcs.
  rewrite !list_elem_of_fmap. unfold marked_rows.
  setoid_rewrite list_elem_of_bind. split.
  - intros (r & Hd & [k g] & Hr & [Hk ->]%elem_of_group_by).
    apply list_elem_of_fmap in Hr as (r' & -> & [_ Hr']%list_elem_of_filter).
    simpl in Hd. eauto.
  - intros (r & Hd & Hr).
    set (r' := QtyCount.mk (QtyCount.ndc r) (QtyCount.quantity r)
                 (QtyCount.count r)
                 (if decide (QtyCount.count r = col_max
                       (QtyCount.count <$> drug_counts df (QtyCount.ndc r)))
                  then Some (QtyCount.quantity r) else None)).
    exists r'. split; [done|].
    exists (QtyCount.ndc r, drug_counts df (QtyCount.ndc r)). split.
    + apply list_elem_of_fmap. exists r. split; [done|].
      by apply list_elem_of_filter.
    + apply elem_of_group_by. split; [|done].
      apply list_elem_of_fmap. eauto.
Qed.

(** The quantities left by [drop_nulls] after [map_groups]. *)
Lemma drop_nulls_mark_modes (g : list QtyCount.t) :
  drop_nulls (QtyCount.mode_qty <$> mark_modes g)
  = QtyCount.quantity
    <$> filter (λ r, QtyCount.count r = col_max (QtyCount.count <$> g)) g.
Proof.
  unfold mark_modes, drop_nulls. generalize (col_max (QtyCount.count <$> g)).
  intros m. induction g as [|r g IH]; [done|]. csimpl.
  rewrite filter_cons, IH. by case_decide.
Qed.

(** The list of a drug before it is sorted. *)
Lemma drug_modes_spec df d :
  let L := drop_nulls (QtyCount.mode_qty <$> mark_modes (drug_counts df d)) in
  NoDup L ∧ ∀ q, q ∈ L ↔ is_mode df d q.
Proof.
  simpl. rewrite drop_nulls_mark_modes. split.
  - eapply NoDup_fmap_finer; last first.
    { do 2 apply NoDup_fmap_filter. apply quantity_counts_keys_NoDup. }
    intros x y [_ [Hx _]%list_elem_of_filter]%list_elem_of_filter
               [_ [Hy _]%list_elem_of_filter]%list_elem_of_filter.
    congruence.
  - intros q. rewrite list_elem_of_fmap. split.
    + intros (r & -> & [Hmax Hr]%list_elem_of_filter).
      by apply drug_counts_max.
    + intros Hmode. exists (QtyCount.mk d q (qty_count df d q) None).
      split; [done|].
      assert (QtyCount.mk d q (qty_count df d q) None ∈ drug_counts df d) as Hr.
      { apply list_elem_of_filter. split; [done|].
        apply elem_of_quantity_counts. eexists _, _. split; [|done].
        apply Hmode. }
      apply list_elem_of_filter. split; [|done]. by apply drug_counts_max.
Qed.

Lemma drug_modes_nonempty df d :
  d ∈ QtyCount.ndc <$> quantity_counts df →
  drop_nulls (QtyCount.mode_qty <$> mark_modes (drug_counts df d)) ≠ [].
Proof.
  intros (r & -> & Hr)%list_elem_of_fmap.
  set (g := drug_counts df (QtyCount.ndc r)).
  assert (r ∈ g) as Hg by by apply list_elem_of_filter.
  assert (col_max (QtyCount.count <$> g) ∈ QtyCount.count <$> g) as Hmax.
  { apply col_max_elem. intros Hnil%fmap_nil_inv.
    rewrite Hnil in Hg. by apply elem_of_nil in Hg. }
  apply list_elem_of_fmap in Hmax as (r' & Hmax & Hr').
  rewrite drop_nulls_mark_modes. intros Hnil%fmap_nil_inv.
  apply (not_elem_of_nil r'). rewrite <-Hnil. by apply list_elem_of_filter.
Qed.

Lemma sorted_modes_unique df d L1 L2 :
  sorted_modes df d L1 → sorted_modes df d L2 → L1 = L2.
Proof.
  intros (Hn1 & Hs1 & Hel1) (Hn2 & Hs2 & Hel2).
  apply (sorted_ext (λ x, x) fleb); rewrite ?list_fmap_id; try done.
  intros q. by rewrite Hel1, Hel2.
Qed.

(** The list the report holds for a drug with claims. *)
Lemma sorted_modes_code df d :
  sorted_modes df d
    (sort (λ q : num, q) fleb
       (drop_nulls (QtyCount.mode_qty <$> mark_modes (drug_counts df d)))).
Proof.
  destruct (drug_modes_spec df d) as [Hn Hel]. split_and!.
  - by rewrite sort_perm.
  - apply (sort_sorted (λ q : num, q)). apply _.
  - intros q. by rewrite elem_of_sort.
Qed.

(** The report when [map_groups] returns: its rows are in ascending
    order of [ndc] without a repeated [ndc], there is a row for every
    drug with a claim, and it lists the most prescribed quantities of
    the drug. *)
Lemma quantity_insights_spec df :
  let out := quantity_modes (marked_rows df) in
  StronglySorted
    (λ r1 r2, le_of str_leb (Insight.ndc r1) (Insight.ndc r2)) out ∧
  NoDup (Insight.ndc <$> out) ∧
  ∀ row, row ∈ out ↔
    (∃ c, c ∈ df ∧ Enriched.ndc c = Insight.ndc row) ∧
    sorted_modes df (Insight.ndc row) (Insight.most_prescribed_quantity row).
Proof.
  simpl. unfold quantity_modes. split_and!.
  - apply (sort_sorted Insight.ndc). apply _.
  - rewrite sort_perm. apply NoDup_fmap_filter.
    rewrite <-list_fmap_compose.
    erewrite list_fmap_ext; [apply (NoDup_group_by_keys false)|].
    by intros i [d g] _.
  - intros row.
    rewrite elem_of_sort, list_elem_of_filter, list_elem_of_fmap. split.
    + intros [_ ([d g] & -> & [Hd ->]%elem_of_group_by)]. simpl.
      apply quantity_marked_ndcs in Hd as Hd'. split; [done|].
      rewrite quantity_marked_drug by by apply quantity_counts_ndcs.
      apply sorted_modes_code.
    + intros [Hd HL]. destruct row as [d L]; simpl in *.
      assert (L = sort (λ q : num, q) fleb
        (drop_nulls (QtyCount.mode_qty <$> mark_modes (drug_counts df d))))
        as -> by eauto using sorted_modes_unique, sorted_modes_code.
      apply quantity_counts_ndcs in Hd as Hd'. split.
      * simpl. apply drug_modes_nonempty in Hd'.
        rewrite sort_perm. destruct (drop_nulls _); [done|simpl; lia].
      * exists (d, filter (λ r, QtyCount.ndc r = d) (marked_rows df)).
        split; [simpl; by rewrite quantity_marked_drug|].
        apply (elem_of_group_by false). split; [|done].
        by apply quantity_marked_ndcs.
Qed.

(** [map_groups] raises exactly when there is no claim. *)
Lemma quantity_counts_nil df : quantity_counts df = [] ↔ df = [].
Proof.
  split.
  - intros Hnil. destruct df as [|c df]; [done|].
    assert (Enriched.ndc c ∈ QtyCount.ndc <$> quantity_counts (c :: df)) as Hc.
    { apply quantity_counts_ndcs. exists c. split; [left|done]. }
    rewrite Hnil in Hc. by apply elem_of_nil in Hc.
  - intros ->. apply elem_of_nil_inv.
    intros r (d & q & (c & Hc & _)%qty_count_pos & _)%elem_of_quantity_counts.
    by apply elem_of_nil in Hc.
Qed.

Lemma compute_quantity_insights_nil : compute_quantity_insights [] = None.
Proof.
  unfold compute_quantity_insights, quantity_marked.
  by rewrite (proj2 (quantity_counts_nil [])).
Qed.

Lemma compute_quantity_insights_cons df :
  df ≠ [] →
  compute_quantity_insights df = Some (quantity_modes (marked_rows df)).
Proof.
  intros Hne.
  unfold compute_quantity_insights, quantity_marked, map_groups, marked_rows.
  destruct (quantity_counts df) eqn:Hc; [|done].
  by apply quantity_counts_nil in Hc.
Qed.

Lemma compute_quantity_insights_None df :
  compute_quantity_insights df = None ↔ df = [].
Proof.
  split.
  - intros Hnone. destruct (decide (df = [])) as [|Hne]; [done|].
    by rewrite compute_quantity_insights_cons in Hnone.
  - intros ->. apply compute_quantity_insights_nil.
Qed.

End quantity_facts.


(** ** Join and enrichment *)

Section enrich_facts.
Context `{F : Float64}.

Lemma elem_of_filter_to_pharmacy_dataset `{J : Joiner} {HJ : JoinerLaws J}
    (df_claims : list Claim.t) (df_pharmacies : list Pharmacy.t) c :
  c ∈ filter_to_pharmacy_dataset df_claims df_pharmacies ↔
  c ∈ df_claims ∧ ∃ p, p ∈ df_pharmacies ∧ Pharmacy.npi p = Claim.npi c.
Proof.
  unfold filter_to_pharmacy_dataset, join_inner.
  rewrite inner_order_perm, list_elem_of_bind. split.
  - intros (c' & (n & -> & [Hn (p & -> & Hp)%list_elem_of_fmap]%list_elem_of_filter)%list_elem_of_fmap & Hc').
    eauto.
  - intros (Hc & p & Hp & Hnpi). exists c. split; [|done].
    apply list_elem_of_fmap. exists (Pharmacy.npi p). split; [done|].
    apply list_elem_of_filter. split; [done|].
    apply list_elem_of_fmap. eauto.
Qed.

Lemma mark_reverted_claims_claim
    (df_claims : list Claim.t) (df_reverts : list Revert.t) :
  Enriched.claim <$> mark_reverted_claims df_claims df_reverts = df_claims.
Proof.
  unfold mark_reverted_claims. rewrite <-list_fmap_compose.
  induction df_claims as [|c l IH]; csimpl; congruence.
Qed.

Lemma mark_reverted_claims_ext
    (df_claims : list Claim.t) (rv1 rv2 : list Revert.t) :
  (∀ i, i ∈ Revert.claim_id <$> rv1 ↔ i ∈ Revert.claim_id <$> rv2) →
  mark_reverted_claims df_claims rv1 = mark_reverted_claims df_claims rv2.
Proof.
  intros Hids. unfold mark_reverted_claims.
  apply list_fmap_ext. intros _ c _. f_equal.
  apply bool_decide_ext, Hids.
Qed.

(** *** Clearing the column [is_reverted] *)

Lemma metrics_group_clear (df : list Enriched.t) n d :
  metrics_group (clear_reverted <$> df) n d
  = clear_reverted <$> metrics_group df n d.
Proof. unfold metrics_group. by rewrite filter_fmap. Qed.

Lemma with_chain_clear (df : list Enriched.t) (ph : list Pharmacy.t) :
  with_chain (clear_reverted <$> df) ph
  = clear_reverted_chain <$> with_chain df ph.
Proof.
  unfold with_chain, join_left.
  induction df as [|c df IH]; [done|].
  rewrite fmap_cons, !bind_cons, fmap_app, IH. f_equal.
  change (Enriched.npi (clear_reverted c)) with (Enriched.npi c).
  destruct (filter _ ph) as [|p ps]; [done|].
  rewrite <-!list_fmap_compose. by apply list_fmap_ext.
Qed.

Lemma chain_group_clear (df : list Enriched.t) (ph : list Pharmacy.t) d c :
  chain_group (clear_reverted <$> df) ph d c
  = clear_reverted_chain <$> chain_group df ph d c.
Proof. unfold chain_group. by rewrite with_chain_clear, filter_fmap. Qed.

Lemma candidate_clear (df : list Enriched.t) (ph : list Pharmacy.t) d c p :
  candidate (clear_reverted <$> df) ph d c p ↔ candidate df ph d c p.
Proof.
  unfold candidate. rewrite chain_group_clear, <-!list_fmap_compose.
  assert (∀ g : list WithChain.t, clear_reverted_chain <$> g ≠ [] ↔ g ≠ [])
    as ->; [|done].
  intros g. by destruct g.
Qed.

Lemma qty_count_clear (df : list Enriched.t) d q :
  qty_count (clear_reverted <$> df) d q = qty_count df d q.
Proof. unfold qty_count. by rewrite filter_fmap, length_fmap. Qed.

End enrich_facts.

(** * The claims *)

(** ** The interpretations meet the laws *)

Lemma DecFloat_laws : Float64Laws Fixed.DecFloat.
Proof.
  split; simpl.
  - intros x y. rewrite !Z.leb_le. lia.
  - intros x y z. rewrite !Z.leb_le. lia.
  - intros x y. rewrite !Z.leb_le. lia.
  - done.
Qed.

Lemma keep_laws : EngineLaws Fixed.keep.
Proof. by intros A l. Qed.

Lemma flip_laws : EngineLaws Fixed.flip.
Proof. intros A l. simpl. apply reverse_Permutation. Qed.

Lemma probe_left_laws : JoinerLaws Fixed.probe_left.
Proof. by intros A B C left right rows. Qed.

Lemma probe_back_laws : JoinerLaws Fixed.probe_back.
Proof. intros A B C left right rows. simpl. apply reverse_Permutation. Qed.

(** Membership of an explicit row in an explicit frame, by evaluation. *)
Ltac elem_of_frame :=
  vm_compute;
  repeat first [apply list_elem_of_here | apply list_elem_of_further].

(** ** Join and enrichment *)

(** C5: a claim is in the frame [filter_to_pharmacy_dataset] returns iff
    it is an input claim whose [npi] is the [npi] of some pharmacy row;
    the other claims are dropped, and the function is total (it returns a
    frame for every input).  This holds in whatever order the join
    returns its rows. *)
Theorem join_exclusivity `{F : Float64} `{J : Joiner}
    (df_claims : list Claim.t) (df_pharmacies : list Pharmacy.t) (c : Claim.t) :
  JoinerLaws J →
  (c ∈ filter_to_pharmacy_dataset df_claims df_pharmacies ↔
     c ∈ df_claims ∧ ∃ p, p ∈ df_pharmacies ∧ Pharmacy.npi p = Claim.npi c) ∧
  ((∀ p, p ∈ df_pharmacies → Pharmacy.npi p ≠ Claim.npi c) →
     c ∉ filter_to_pharmacy_dataset df_claims df_pharmacies).
Proof.
  intros HJ.
  pose proof (elem_of_filter_to_pharmacy_dataset df_claims df_pharmacies c)
    as Hiff.
  split; [done|]. intros Hnone [_ (p & Hp & Hnpi)]%Hiff. by eapply Hnone.
Qed.

(** The claim of an unknown pharmacy is dropped, the other is kept. *)
Lemma join_exclusivity_witness :
  let c1 := Claim.mk (H:=Fixed.DecFloat) "c1" "1" "d1" (Fixed.dec 1000) (Fixed.dec 200) "t1" in
  let c3 := Claim.mk (H:=Fixed.DecFloat) "c3" "9" "d1" (Fixed.dec 10000) (Fixed.dec 100) "t3" in
  let ph := [Pharmacy.mk "1" "A"; Pharmacy.mk "2" "B"] in
  JoinerLaws Fixed.probe_back ∧
  c1 ∈ filter_to_pharmacy_dataset (J:=Fixed.probe_back) [c1; c3] ph ∧
  c3 ∉ filter_to_pharmacy_dataset (J:=Fixed.probe_back) [c1; c3] ph.
Proof.
  intros c1 c3 ph. split; [exact probe_back_laws|]. split.
  - apply (proj1 (join_exclusivity [c1; c3] ph c1 probe_back_laws)). split.
    + elem_of_frame.
    + exists (Pharmacy.mk "1" "A"). split; [elem_of_frame|reflexivity].
  - apply (proj2 (join_exclusivity [c1; c3] ph c3 probe_back_laws)).
    intros p Hp. apply list_elem_of_In in Hp.
    destruct Hp as [<-|[<-|[]]]; vm_compute; discriminate.
Defined.

(** C6: [mark_reverted_claims] returns the input claims, one row each
    and unchanged, with [is_reverted] true exactly for the claims whose
    [id] is the [claim_id] of some revert; only the set of these
    [claim_id]s matters, so a further revert of a claim already reverted
    changes nothing. *)
Theorem revert_correctness `{F : Float64}
    (df_claims : list Claim.t) (df_reverts : list Revert.t) :
  let out := mark_reverted_claims df_claims df_reverts in
  Enriched.claim <$> out = df_claims ∧
  length out = length df_claims ∧
  (∀ c, c ∈ out →
     (Enriched.is_reverted c = true ↔
      ∃ r, r ∈ df_reverts ∧ Revert.claim_id r = Claim.id (Enriched.claim c))) ∧
  (∀ r, Revert.claim_id r ∈ Revert.claim_id <$> df_reverts →
     mark_reverted_claims df_claims (r :: df_reverts) = out) ∧
  (∀ df_reverts',
     (∀ i, i ∈ Revert.claim_id <$> df_reverts ↔
           i ∈ Revert.claim_id <$> df_reverts') →
     mark_reverted_claims df_claims df_reverts' = out).
Proof.
  simpl. split_and!.
  - apply mark_reverted_claims_claim.
  - unfold mark_reverted_claims. by rewrite length_fmap.
  - intros c (c' & -> & _)%list_elem_of_fmap. simpl.
    rewrite bool_decide_eq_true, list_elem_of_fmap. naive_solver.
  - intros r Hr. apply mark_reverted_claims_ext. intros i. csimpl.
    rewrite elem_of_cons. naive_solver.
  - intros rv' Hids. by apply mark_reverted_claims_ext.
Qed.

(** A claim reverted twice is marked as a claim reverted once. *)
Lemma revert_correctness_witness :
  let c1 := Claim.mk (H:=Fixed.DecFloat) "c1" "1" "d1" (Fixed.dec 1000) (Fixed.dec 200) "t1" in
  let c2 := Claim.mk (H:=Fixed.DecFloat) "c2" "2" "d1" (Fixed.dec 900) (Fixed.dec 300) "t2" in
  let r1 := Revert.mk "r1" "c1" "t3" in
  let r2 := Revert.mk "r2" "c1" "t4" in
  Revert.claim_id r2 ∈ Revert.claim_id <$> [r1] ∧
  mark_reverted_claims [c1; c2] [r2; r1] = mark_reverted_claims [c1; c2] [r1] ∧
  mark_reverted_claims [c1; c2] [r1]
  = [Enriched.mk c1 true; Enriched.mk c2 false].
Proof.
  intros c1 c2 r1 r2.
  assert (Revert.claim_id r2 ∈ Revert.claim_id <$> [r1]) as Hr by elem_of_frame.
  split; [exact Hr|]. split; [|reflexivity].
  exact (proj1 (proj2 (proj2 (proj2
    (revert_correctness [c1; c2] [r1])))) r2 Hr).
Defined.

(** ** Metrics *)

(** C2 (as the code has it): the metrics report has exactly one row per
    (npi, ndc) group of enriched claims, in ascending order of the pair
    (npi, ndc); in the row of a group, [fills] is the number of claims
    of the group, [reverted] the number of them with [is_reverted] true
    (so at most [fills]), [total_price] the rounded sum of their prices,
    and [avg_price] is [0.0] whenever the total quantity is not positive,
    in particular when it is [0.0].  The converse does not hold: a group
    with positive total quantity can have [avg_price = 0.0]. *)
Theorem metrics_conservation `{F : Float64} `{E : Engine}
    (df : list Enriched.t) :
  Float64Laws F → EngineLaws E →
  let out := compute_npi_ndc_metrics df in
  (∀ c, c ∈ df →
     ∃ row, row ∈ out ∧ Metric.npi row = Enriched.npi c
                      ∧ Metric.ndc row = Enriched.ndc c) ∧
  NoDup (metric_key <$> out) ∧
  StronglySorted
    (λ r1 r2, le_of (lex_leb str_leb str_leb) (metric_key r1) (metric_key r2))
    out ∧
  ∀ row, row ∈ out →
    let g := metrics_group df (Metric.npi row) (Metric.ndc row) in
    let total_quantity := fsum (Enriched.quantity <$> g) in
    g ≠ [] ∧
    Metric.fills row = length g ∧
    Metric.reverted row
      = length (filter (λ c, Enriched.is_reverted c = true) g) ∧
    Metric.reverted row ≤ Metric.fills row ∧
    Metric.total_price row = round2 (fsum (Enriched.price <$> g)) ∧
    (gt0 total_quantity = false → Metric.avg_price row = zero) ∧
    (total_quantity = zero → Metric.avg_price row = zero).
Proof.
  intros HF HE. simpl. split_and!.
  - intros c Hc. eexists. split; [apply elem_of_metrics; eauto|done].
  - apply metrics_keys_NoDup.
  - apply metrics_sorted.
  - intros row (c & Hc & ->)%elem_of_metrics. simpl.
    assert (gt0 (fsum (Enriched.quantity
              <$> metrics_group df (Enriched.npi c) (Enriched.ndc c))) = false →
            metrics_avg_price (metrics_agg
              (Enriched.npi c, Enriched.ndc c,
               metrics_group df (Enriched.npi c) (Enriched.ndc c))) = zero)
      as Havg.
    { unfold metrics_avg_price; simpl. by intros ->. }
    split_and!; try done.
    + intros Hnil. apply metrics_group_nonempty in Hc.
      rewrite Hnil in Hc. by apply elem_of_nil in Hc.
    + apply length_filter.
    + intros Hq. apply Havg. rewrite Hq. apply gt0_zero.
Qed.

(** C2, the claim as stated fails: a group whose only claim has price
    [0.00] and quantity [1.00] gets [avg_price = 0.0] although its total
    quantity is not [0.0]. *)
Lemma metrics_avg_price_zero_not_iff :
  let c := Claim.mk (H:=Fixed.DecFloat) "c1" "1" "d1" (Fixed.dec 0) (Fixed.dec 100) "t1" in
  let df := [Enriched.mk c false] in
  ¬ (∀ row, row ∈ compute_npi_ndc_metrics (E:=Fixed.keep) df →
       (Metric.avg_price row = zero ↔
        fsum (Enriched.quantity
                <$> metrics_group df (Metric.npi row) (Metric.ndc row)) = zero)).
Proof.
  intros c df Hiff.
  specialize (Hiff (Metric.mk (H:=Fixed.DecFloat) "1" "d1" 1 0 0%Z 0%Z)).
  destruct Hiff as [Hzero _]; [elem_of_frame|].
  specialize (Hzero eq_refl). vm_compute in Hzero. discriminate.
Qed.

(** Two groups under the reversing engine; the second has total quantity
    [0.0]. *)
Lemma metrics_conservation_witness :
  let c1 := Claim.mk (H:=Fixed.DecFloat) "c1" "1" "d1" (Fixed.dec 1000) (Fixed.dec 200) "t1" in
  let c2 := Claim.mk (H:=Fixed.DecFloat) "c2" "1" "d1" (Fixed.dec 500) (Fixed.dec 100) "t2" in
  let c3 := Claim.mk (H:=Fixed.DecFloat) "c3" "2" "d1" (Fixed.dec 300) (Fixed.dec 0) "t3" in
  let df := [Enriched.mk c1 true; Enriched.mk c2 false; Enriched.mk c3 false] in
  let out := compute_npi_ndc_metrics (E:=Fixed.flip) df in
  Float64Laws Fixed.DecFloat ∧ EngineLaws Fixed.flip ∧
  (∀ c, c ∈ df →
     ∃ row, row ∈ out ∧ Metric.npi row = Enriched.npi c
                      ∧ Metric.ndc row = Enriched.ndc c) ∧
  NoDup (metric_key <$> out) ∧
  StronglySorted
    (λ r1 r2, le_of (lex_leb str_leb str_leb) (metric_key r1) (metric_key r2))
    out ∧
  ∀ row, row ∈ out →
    let g := metrics_group df (Metric.npi row) (Metric.ndc row) in
    let total_quantity := fsum (Enriched.quantity <$> g) in
    g ≠ [] ∧
    Metric.fills row = length g ∧
    Metric.reverted row
      = length (filter (λ c, Enriched.is_reverted c = true) g) ∧
    Metric.reverted row ≤ Metric.fills row ∧
    Metric.total_price row = round2 (fsum (Enriched.price <$> g)) ∧
    (gt0 total_quantity = false → Metric.avg_price row = zero) ∧
    (total_quantity = zero → Metric.avg_price row = zero).
Proof.
  intros c1 c2 c3 df out.
  split; [exact DecFloat_laws|]. split; [exact flip_laws|].
  exact (metrics_conservation df DecFloat_laws flip_laws).
Defined.

(** C7: in the row of a (npi, ndc) group, [avg_price] is the rounded
    quotient of the unrounded sum of the prices by the total quantity
    when the total quantity is positive, and [0.0] otherwise; the
    rounding of [total_price] happens apart, on the same unrounded sum. *)
Theorem metrics_avg_price_unrounded `{F : Float64} `{E : Engine}
    (df : list Enriched.t) (row : Metric.t) :
  EngineLaws E →
  row ∈ compute_npi_ndc_metrics df →
  let g := metrics_group df (Metric.npi row) (Metric.ndc row) in
  let total_price_unrounded := fsum (Enriched.price <$> g) in
  let total_quantity := fsum (Enriched.quantity <$> g) in
  Metric.avg_price row
    = (if gt0 total_quantity
       then round2 (fdiv total_price_unrounded total_quantity)
       else zero) ∧
  Metric.total_price row = round2 total_price_unrounded.
Proof.
  intros HE (c & Hc & ->)%elem_of_metrics. done.
Qed.

(** A group with prices 0.0040 and quantity 0.1000: the average is 0.04,
    which the rounded total (0.00) would not give. *)
Lemma metrics_avg_price_unrounded_witness :
  let c := Claim.mk (H:=Fixed.DecFloat) "c1" "1" "d1" 40%Z 1000%Z "t1" in
  let df := [Enriched.mk c false] in
  let row := Metric.mk (H:=Fixed.DecFloat) "1" "d1" 1 0 400%Z 0%Z in
  EngineLaws Fixed.flip ∧
  row ∈ compute_npi_ndc_metrics (E:=Fixed.flip) df ∧
  (let g := metrics_group df (Metric.npi row) (Metric.ndc row) in
   let total_price_unrounded := fsum (Enriched.price <$> g) in
   let total_quantity := fsum (Enriched.quantity <$> g) in
   Metric.avg_price row
     = (if gt0 total_quantity
        then round2 (fdiv total_price_unrounded total_quantity)
        else zero) ∧
   Metric.total_price row = round2 total_price_unrounded) ∧
  Metric.avg_price row ≠ round2 (fdiv (Metric.total_price row) 1000%Z).
Proof.
  intros c df row.
  assert (row ∈ compute_npi_ndc_metrics (E:=Fixed.flip) df) as Hrow
    by elem_of_frame.
  split; [exact flip_laws|]. split; [exact Hrow|]. split.
  - exact (metrics_avg_price_unrounded df row flip_laws Hrow).
  - vm_compute. discriminate.
Defined.

(** ** Chain recommendations *)

Lemma rank_leb_inv `{F : Float64} (x y : num * option string) :
  rank_leb x y = true →
  fleb x.1 y.1 = true ∧
  (x.1 = y.1 → null_first_leb str_leb x.2 y.2 = true).
Proof.
  unfold rank_leb, lex_leb. destruct (fleb x.1 y.1) eqn:Hxy; [|done].
  intros Hle. split; [done|]. intros Heq. rewrite <-Heq in *.
  by rewrite Hxy in Hle.
Qed.

(** C1: [compute_chain_recommendations] returns a report with a row for
    every drug that has an eligible chain candidate (a chain whose claims
    for the drug have positive total quantity); the [chain] list of a row
    is the first two (or the only one) of the drug's candidates ranked by
    ([avg_price] ascending, chain name ascending), so it has at most two
    entries, cheapest first, and of two entries with the same [avg_price]
    the one with the smaller name comes first. *)
Theorem chain_recommendations_top2 `{F : Float64} `{E : Engine}
    (df : list Enriched.t) (ph : list Pharmacy.t) :
  Float64Laws F → EngineLaws E →
  ∃ out, compute_chain_recommendations df ph = Some out ∧
    (∀ d c p, candidate df ph d c p →
       ∃ row, row ∈ out ∧ DrugChains.ndc row = d) ∧
    ∀ row, row ∈ out →
      ∃ L, ranked df ph (DrugChains.ndc row) L ∧
        DrugChains.chain row = entry_of <$> take 2 L ∧
        length (DrugChains.chain row) ≤ 2 ∧
        StronglySorted
          (λ e1 e2,
             fleb (ChainEntry.avg_price e1) (ChainEntry.avg_price e2) = true ∧
             (ChainEntry.avg_price e1 = ChainEntry.avg_price e2 →
              null_first_leb str_leb
                (ChainEntry.name e1) (ChainEntry.name e2) = true))
          (DrugChains.chain row).
Proof.
  intros HF HE.
  destruct (chain_recommendations_spec df ph) as (out & Hout & _ & _ & Hel).
  exists out. split; [done|]. split.
  - intros d c p Hc.
    pose proof (ranked_chain_agg_sorted df ph d) as HL.
    eexists (DrugChains.mk d _). split; [|done].
    apply Hel. eexists. split_and!; [|exact HL|done].
    destruct HL as (_ & _ & HL). apply HL in Hc. intros Hnil.
    rewrite Hnil in Hc. by apply elem_of_nil in Hc.
  - intros row (L & _ & HL & Hrow)%Hel. exists L.
    split_and!; [done..| |]; rewrite Hrow.
    + rewrite length_fmap, length_take. lia.
    + destruct HL as (_ & Hs & _).
      eapply StronglySorted_fmap; [|by apply StronglySorted_take].
      intros x y. apply rank_leb_inv.
Qed.

(** On the sample, under the reversing engine: the three chains A, B, C
    tie at 3.00 for [d1]; A and B are listed. *)
Lemma chain_recommendations_top2_witness :
  let df := Sample.enriched in
  let ph := Sample.pharmacies in
  Float64Laws Fixed.DecFloat ∧ EngineLaws Fixed.flip ∧
  compute_chain_recommendations (E:=Fixed.flip) df ph
  = Some Sample.chain_report ∧
  ∃ out, compute_chain_recommendations (E:=Fixed.flip) df ph = Some out ∧
    (∀ d c p, candidate df ph d c p →
       ∃ row, row ∈ out ∧ DrugChains.ndc row = d) ∧
    ∀ row, row ∈ out →
      ∃ L, ranked df ph (DrugChains.ndc row) L ∧
        DrugChains.chain row = entry_of <$> take 2 L ∧
        length (DrugChains.chain row) ≤ 2 ∧
        StronglySorted
          (λ e1 e2,
             fleb (ChainEntry.avg_price e1) (ChainEntry.avg_price e2) = true ∧
             (ChainEntry.avg_price e1 = ChainEntry.avg_price e2 →
              null_first_leb str_leb
                (ChainEntry.name e1) (ChainEntry.name e2) = true))
          (DrugChains.chain row).
Proof.
  intros df ph.
  split; [exact DecFloat_laws|]. split; [exact flip_laws|].
  split; [vm_compute; reflexivity|].
  exact (chain_recommendations_top2 df ph DecFloat_laws flip_laws).
Defined.

(** C8: a (ndc, chain) group whose total quantity is [0.0] has a null
    [avg_price] and is left out of the report: the call returns (the
    [lambda] never meets a null price), every row lists at least one
    chain, there is a row for a drug iff the drug has an eligible
    candidate, every listed chain is an eligible candidate of the row's
    drug, and the chain of a group with total quantity [0.0] is not
    listed in the row of the group's drug. *)
Theorem chain_zero_quantity_dropped `{F : Float64} `{E : Engine}
    (df : list Enriched.t) (ph : list Pharmacy.t) :
  Float64Laws F → EngineLaws E →
  ∃ out, compute_chain_recommendations df ph = Some out ∧
    (∀ row, row ∈ out → DrugChains.chain row ≠ []) ∧
    (∀ d, (∃ row, row ∈ out ∧ DrugChains.ndc row = d) ↔
          (∃ c p, candidate df ph d c p)) ∧
    (∀ row e, row ∈ out → e ∈ DrugChains.chain row →
       candidate df ph (DrugChains.ndc row)
         (ChainEntry.name e) (ChainEntry.avg_price e)) ∧
    (∀ d c,
       let g := chain_group df ph d c in
       fsum (WithChain.quantity <$> g) = zero →
       ChainAgg.avg_price (chain_group_agg ((d, c), g)) = None ∧
       ∀ row e, row ∈ out → DrugChains.ndc row = d →
         e ∈ DrugChains.chain row → ChainEntry.name e ≠ c).
Proof.
  intros HF HE.
  destruct (chain_recommendations_spec df ph) as (out & Hout & _ & _ & Hel).
  assert (∀ row e, row ∈ out → e ∈ DrugChains.chain row →
    candidate df ph (DrugChains.ndc row)
      (ChainEntry.name e) (ChainEntry.avg_price e)) as Hlisted.
  { intros row e (L & _ & (_ & _ & HL) & ->)%Hel
      ([p c] & -> & Hpc%subseteq_take)%list_elem_of_fmap.
    by apply HL. }
  exists out. split_and!; [done| | |done|].
  - intros row (L & Hne & _ & ->)%Hel. by destruct L.
  - intros d. split.
    + intros (row & (L & Hne & (_ & _ & HL) & _)%Hel & <-).
      destruct L as [|[p c] L]; [done|]. exists c, p. apply HL. left.
    + intros (c & p & Hc).
      pose proof (ranked_chain_agg_sorted df ph d) as HL.
      eexists (DrugChains.mk d _). split; [|done].
      apply Hel. eexists. split_and!; [|exact HL|done].
      destruct HL as (_ & _ & HL). apply HL in Hc. intros Hnil.
      rewrite Hnil in Hc. by apply elem_of_nil in Hc.
  - intros d c g Hzero. split.
    + unfold chain_group_agg; simpl. fold g. by rewrite Hzero, gt0_zero.
    + intros row e Hrow <- He <-.
      destruct (Hlisted row e Hrow He) as (_ & Hpos & _).
      fold g in Hpos. by rewrite Hzero, gt0_zero in Hpos.
Qed.

(** On the sample: chain D has total quantity 0.00 for both drugs; it
    is not listed for [d1] and [d2] has no row. *)
Lemma chain_zero_quantity_dropped_witness :
  let df := Sample.enriched in
  let ph := Sample.pharmacies in
  Float64Laws Fixed.DecFloat ∧ EngineLaws Fixed.flip ∧
  fsum (WithChain.quantity <$> chain_group df ph "d1" (Some "D")) = zero ∧
  fsum (WithChain.quantity <$> chain_group df ph "d2" (Some "D")) = zero ∧
  ∃ out, compute_chain_recommendations (E:=Fixed.flip) df ph = Some out ∧
    (∀ row, row ∈ out → DrugChains.chain row ≠ []) ∧
    (∀ d, (∃ row, row ∈ out ∧ DrugChains.ndc row = d) ↔
          (∃ c p, candidate df ph d c p)) ∧
    (∀ row e, row ∈ out → e ∈ DrugChains.chain row →
       candidate df ph (DrugChains.ndc row)
         (ChainEntry.name e) (ChainEntry.avg_price e)) ∧
    (∀ d c,
       let g := chain_group df ph d c in
       fsum (WithChain.quantity <$> g) = zero →
       ChainAgg.avg_price (chain_group_agg ((d, c), g)) = None ∧
       ∀ row e, row ∈ out → DrugChains.ndc row = d →
         e ∈ DrugChains.chain row → ChainEntry.name e ≠ c).
Proof.
  intros df ph.
  split; [exact DecFloat_laws|]. split; [exact flip_laws|].
  split; [vm_compute; reflexivity|]. split; [vm_compute; reflexivity|].
  exact (chain_zero_quantity_dropped df ph DecFloat_laws flip_laws).
Defined.

(** ** Quantity insights *)

(** C3: on a frame with a claim [compute_quantity_insights] returns,
    and the quantity report has exactly one row per drug with a claim,
    in ascending order of [ndc]; the list of a row holds exactly the
    quantities of the drug whose number of claims is the largest among
    the drug's quantities (every tied mode, and none with a smaller
    count), each once, in ascending order.  The call raises exactly on
    the frame without claims, where there is no drug to report. *)
Theorem quantity_insights_modes `{F : Float64} `{E : Engine}
    (df : list Enriched.t) :
  Float64Laws F → EngineLaws E →
  (compute_quantity_insights df = None ↔ df = []) ∧
  (df ≠ [] →
   ∃ out, compute_quantity_insights df = Some out ∧
  (∀ c, c ∈ df → ∃ row, row ∈ out ∧ Insight.ndc row = Enriched.ndc c) ∧
  NoDup (Insight.ndc <$> out) ∧
  StronglySorted
    (λ r1 r2, le_of str_leb (Insight.ndc r1) (Insight.ndc r2)) out ∧
  ∀ row, row ∈ out →
    (∃ c, c ∈ df ∧ Enriched.ndc c = Insight.ndc row) ∧
    (∀ q, q ∈ Insight.most_prescribed_quantity row ↔
          0 < qty_count df (Insight.ndc row) q ∧
          ∀ q', qty_count df (Insight.ndc row) q'
                ≤ qty_count df (Insight.ndc row) q) ∧
    StronglySorted (le_of fleb) (Insight.most_prescribed_quantity row) ∧
    NoDup (Insight.most_prescribed_quantity row)).
Proof.
  intros HF HE. split; [apply compute_quantity_insights_None|].
  intros Hne. eexists. split; [by apply compute_quantity_insights_cons|].
  destruct (quantity_insights_spec df) as (Hs & Hn & Hel).
  split_and!; [|done..|].
  - intros c Hc. eexists (Insight.mk (Enriched.ndc c) _). split; [|done].
    apply Hel. simpl. split; [eauto|]. apply sorted_modes_code.
  - intros row [Hd (HnL & HsL & HelL)]%Hel. done.
Qed.

(** On the sample: the quantities 2.00 and 3.00 both occur twice for
    [d1] and are both listed. *)
Lemma quantity_insights_modes_witness :
  let df := Sample.enriched in
  Float64Laws Fixed.DecFloat ∧ EngineLaws Fixed.flip ∧
  df ≠ [] ∧
  compute_quantity_insights (E:=Fixed.flip) df = Some Sample.insight_report ∧
  ∃ out, compute_quantity_insights (E:=Fixed.flip) df = Some out ∧
  (∀ c, c ∈ df → ∃ row, row ∈ out ∧ Insight.ndc row = Enriched.ndc c) ∧
  NoDup (Insight.ndc <$> out) ∧
  StronglySorted
    (λ r1 r2, le_of str_leb (Insight.ndc r1) (Insight.ndc r2)) out ∧
  ∀ row, row ∈ out →
    (∃ c, c ∈ df ∧ Enriched.ndc c = Insight.ndc row) ∧
    (∀ q, q ∈ Insight.most_prescribed_quantity row ↔
          0 < qty_count df (Insight.ndc row) q ∧
          ∀ q', qty_count df (Insight.ndc row) q'
                ≤ qty_count df (Insight.ndc row) q) ∧
    StronglySorted (le_of fleb) (Insight.most_prescribed_quantity row) ∧
    NoDup (Insight.most_prescribed_quantity row).
Proof.
  intros df.
  assert (df ≠ []) as Hne by (vm_compute; discriminate).
  split; [exact DecFloat_laws|]. split; [exact flip_laws|].
  split; [exact Hne|]. split; [vm_compute; reflexivity|].
  exact (proj2 (quantity_insights_modes df DecFloat_laws flip_laws) Hne).
Defined.

(** ** The pipeline *)

(** What the run does depends on whether the join leaves a claim. *)
Lemma filter_to_pharmacy_dataset_nil `{F : Float64} `{J : Joiner}
    {HJ : JoinerLaws J} (df_claims : list Claim.t)
    (df_pharmacies : list Pharmacy.t) :
  filter_to_pharmacy_dataset df_claims df_pharmacies = [] ↔
  ∀ c p, c ∈ df_claims → p ∈ df_pharmacies → Pharmacy.npi p ≠ Claim.npi c.
Proof.
  split.
  - intros Hnil c p Hc Hp Hnpi.
    assert (c ∈ filter_to_pharmacy_dataset df_claims df_pharmacies) as Hin
      by (apply elem_of_filter_to_pharmacy_dataset; eauto).
    rewrite Hnil in Hin. by apply elem_of_nil in Hin.
  - intros Hno. apply elem_of_nil_inv.
    intros c [Hc (p & Hp & Hnpi)]%elem_of_filter_to_pharmacy_dataset.
    by eapply Hno.
Qed.

Lemma run_pharmacy_analytics_files `{F : Float64} {HF : Float64Laws F}
    `{E : Engine} {HE : EngineLaws E} `{J : Joiner} {HJ : JoinerLaws J}
    (df_claims : list Claim.t) (df_reverts : list Revert.t)
    (df_pharmacies : list Pharmacy.t) :
  let files := run_pharmacy_analytics df_claims df_reverts df_pharmacies in
  let df := mark_reverted_claims
              (filter_to_pharmacy_dataset df_claims df_pharmacies) df_reverts in
  Reports.npi_metrics files = Some (compute_npi_ndc_metrics df) ∧
  Reports.chain_recommendations files
    = compute_chain_recommendations df df_pharmacies ∧
  is_Some (Reports.chain_recommendations files) ∧
  Reports.quantity_insights files = compute_quantity_insights df ∧
  (Reports.quantity_insights files = None ↔
   ∀ c p, c ∈ df_claims → p ∈ df_pharmacies → Pharmacy.npi p ≠ Claim.npi c) ∧
  (is_Some (Reports.quantity_insights files) ↔
   ∃ c p, c ∈ df_claims ∧ p ∈ df_pharmacies ∧ Pharmacy.npi p = Claim.npi c).
Proof.
  simpl. unfold run_pharmacy_analytics.
  set (df := mark_reverted_claims _ _).
  destruct (chain_recommendations_spec df df_pharmacies) as (out & -> & _).
  simpl.
  assert (df = [] ↔ filter_to_pharmacy_dataset df_claims df_pharmacies = [])
    as Hdf.
  { unfold df, mark_reverted_claims. split; [apply fmap_nil_inv|by intros ->]. }
  split_and!; [done..|by eexists|done| |].
  - by rewrite compute_quantity_insights_None, Hdf,
      filter_to_pharmacy_dataset_nil.
  - rewrite <-not_eq_None_Some, compute_quantity_insights_None, Hdf. split.
    + destruct (filter_to_pharmacy_dataset df_claims df_pharmacies)
        as [|c l] eqn:Hf; [done|]. intros _.
      assert (c ∈ filter_to_pharmacy_dataset df_claims df_pharmacies) as Hc
        by (rewrite Hf; left).
      apply elem_of_filter_to_pharmacy_dataset in Hc as (? & p & ? & ?).
      eauto.
    + intros (c & p & Hc & Hp & Hnpi) Hnil.
      by eapply (proj1 (filter_to_pharmacy_dataset_nil _ _) Hnil).
Qed.



(** ** Reverted claims *)

Section reverted_facts.
Context `{F : Float64} {HF : Float64Laws F} `{E : Engine} {HE : EngineLaws E}.
Implicit Types (df : list Enriched.t) (ph : list Pharmacy.t).

Lemma metrics_clear df :
  without_reverted <$> compute_npi_ndc_metrics df
  = without_reverted <$> compute_npi_ndc_metrics (clear_reverted <$> df).
Proof.
  set (key := λ t : string * string * nat * num * num,
                (t.1.1.1.1, t.1.1.1.2)).
  assert (∀ l : list Metric.t,
    key <$> (without_reverted <$> l) = metric_key <$> l) as Hkey.
  { intros l. rewrite <-list_fmap_compose. by apply list_fmap_ext. }
  apply (sorted_ext key (lex_leb str_leb str_leb)).
  - eapply StronglySorted_fmap; [|apply metrics_sorted]. done.
  - eapply StronglySorted_fmap; [|apply metrics_sorted]. done.
  - rewrite Hkey. apply metrics_keys_NoDup.
  - rewrite Hkey. apply metrics_keys_NoDup.
  - intros t. rewrite !list_elem_of_fmap.
    setoid_rewrite elem_of_metrics. split.
    + intros (row & -> & c & Hc & ->).
      eexists. split; [|exists (clear_reverted c); split; [|done]].
      2:{ apply list_elem_of_fmap. eauto. }
      simpl. unfold without_reverted, metrics_avg_price; simpl.
      change (Enriched.npi (clear_reverted c)) with (Enriched.npi c).
      change (Enriched.ndc (clear_reverted c)) with (Enriched.ndc c).
      rewrite metrics_group_clear, length_fmap, <-!list_fmap_compose. done.
    + intros (row & -> & c' & (c & -> & Hc)%list_elem_of_fmap & ->).
      eexists. split; [|exists c; split; [|done]]; [|done].
      simpl. unfold without_reverted, metrics_avg_price; simpl.
      change (Enriched.npi (clear_reverted c)) with (Enriched.npi c).
      change (Enriched.ndc (clear_reverted c)) with (Enriched.ndc c).
      rewrite metrics_group_clear, length_fmap, <-!list_fmap_compose. done.
Qed.

Lemma ranked_clear df ph d L :
  ranked (clear_reverted <$> df) ph d L ↔ ranked df ph d L.
Proof. unfold ranked. by setoid_rewrite candidate_clear. Qed.

Lemma chain_clear df ph :
  compute_chain_recommendations df ph
  = compute_chain_recommendations (clear_reverted <$> df) ph.
Proof.
  destruct (chain_recommendations_spec df ph)
    as (out1 & -> & Hs1 & Hn1 & Hel1).
  destruct (chain_recommendations_spec (clear_reverted <$> df) ph)
    as (out2 & -> & Hs2 & Hn2 & Hel2).
  f_equal. apply (sorted_ext DrugChains.ndc str_leb); try done.
  intros row. rewrite Hel1, Hel2. by setoid_rewrite ranked_clear.
Qed.

Lemma quantity_clear df :
  compute_quantity_insights df
  = compute_quantity_insights (clear_reverted <$> df).
Proof.
  destruct (decide (df = [])) as [->|Hne]; [done|].
  rewrite !compute_quantity_insights_cons; [|by destruct df|done]. f_equal.
  destruct (quantity_insights_spec df) as (Hs1 & Hn1 & Hel1).
  destruct (quantity_insights_spec (clear_reverted <$> df))
    as (Hs2 & Hn2 & Hel2).
  apply (sorted_ext Insight.ndc str_leb); try done.
  intros row. rewrite Hel1, Hel2.
  unfold sorted_modes, is_mode. setoid_rewrite qty_count_clear.
  assert ((∃ c, c ∈ clear_reverted <$> df ∧ Enriched.ndc c = Insight.ndc row)
          ↔ ∃ c, c ∈ df ∧ Enriched.ndc c = Insight.ndc row) as ->; [|done].
  setoid_rewrite list_elem_of_fmap. split.
  - intros (c' & (c & -> & Hc) & Hd). eauto.
  - intros (c & Hc & Hd). exists (clear_reverted c). eauto.
Qed.

End reverted_facts.

(** C10: reverted claims are aggregated like the others.  The row of a
    claim's (npi, ndc) group counts the claim in [fills] and in the sums
    behind [total_price] and [avg_price] whether [is_reverted] is set or
    not; and but for the column [reverted] the three reports are the ones
    computed from the same claims with [is_reverted] cleared, so the flag
    takes no claim out of the (ndc, chain) sums or of the (ndc, quantity)
    counts either. *)
Theorem reverted_claims_still_aggregated `{F : Float64} `{E : Engine}
    (df : list Enriched.t) (ph : list Pharmacy.t) :
  Float64Laws F → EngineLaws E →
  let cleared := clear_reverted <$> df in
  (∀ c, c ∈ df → Enriched.is_reverted c = true →
     let g := metrics_group df (Enriched.npi c) (Enriched.ndc c) in
     c ∈ g ∧
     ∃ row, row ∈ compute_npi_ndc_metrics df ∧
       Metric.npi row = Enriched.npi c ∧ Metric.ndc row = Enriched.ndc c ∧
       Metric.fills row = length g ∧
       Metric.total_price row = round2 (fsum (Enriched.price <$> g)) ∧
       Metric.avg_price row
         = (if gt0 (fsum (Enriched.quantity <$> g))
            then round2 (fdiv (fsum (Enriched.price <$> g))
                              (fsum (Enriched.quantity <$> g)))
            else zero)) ∧
  without_reverted <$> compute_npi_ndc_metrics df
    = without_reverted <$> compute_npi_ndc_metrics cleared ∧
  compute_chain_recommendations df ph
    = compute_chain_recommendations cleared ph ∧
  compute_quantity_insights df = compute_quantity_insights cleared.
Proof.
  intros HF HE. simpl. split_and!.
  - intros c Hc _. split; [by apply metrics_group_nonempty|].
    eexists. split; [apply elem_of_metrics; eauto|done].
  - apply metrics_clear.
  - apply chain_clear.
  - apply quantity_clear.
Qed.

(** On the sample, where claim [c1] is reverted: its group has two
    fills and total price 15.00. *)
Lemma reverted_claims_still_aggregated_witness :
  let df := Sample.enriched in
  let ph := Sample.pharmacies in
  let cleared := clear_reverted <$> df in
  Float64Laws Fixed.DecFloat ∧ EngineLaws Fixed.flip ∧
  compute_npi_ndc_metrics (E:=Fixed.flip) df = Sample.metric_report ∧
  (∀ c, c ∈ df → Enriched.is_reverted c = true →
     let g := metrics_group df (Enriched.npi c) (Enriched.ndc c) in
     c ∈ g ∧
     ∃ row, row ∈ compute_npi_ndc_metrics (E:=Fixed.flip) df ∧
       Metric.npi row = Enriched.npi c ∧ Metric.ndc row = Enriched.ndc c ∧
       Metric.fills row = length g ∧
       Metric.total_price row = round2 (fsum (Enriched.price <$> g)) ∧
       Metric.avg_price row
         = (if gt0 (fsum (Enriched.quantity <$> g))
            then round2 (fdiv (fsum (Enriched.price <$> g))
                              (fsum (Enriched.quantity <$> g)))
            else zero)) ∧
  without_reverted <$> compute_npi_ndc_metrics (E:=Fixed.flip) df
    = without_reverted <$> compute_npi_ndc_metrics (E:=Fixed.flip) cleared ∧
  compute_chain_recommendations (E:=Fixed.flip) df ph
    = compute_chain_recommendations (E:=Fixed.flip) cleared ph ∧
  compute_quantity_insights (E:=Fixed.flip) df
    = compute_quantity_insights (E:=Fixed.flip) cleared.
Proof.
  intros df ph cleared.
  split; [exact DecFloat_laws|]. split; [exact flip_laws|].
  split; [vm_compute; reflexivity|].
  exact (reverted_claims_still_aggregated df ph DecFloat_laws flip_laws).
Defined.

(** ** Ingestion *)

(** Within one file the loader leaves one row per key. *)
Lemma unique_keys_NoDup `{E : Engine} {HE : EngineLaws E} {A K : Type}
    `{!EqDecision K} (key : A → K) (df : list A) :
  NoDup (key <$> unique key df).
Proof.
  unfold unique. rewrite shuffle_perm.
  assert (key <$> omap (λ kg : K * list A, head kg.2) (partition_by key df)
          = (partition_by key df).*1) as ->.
  { assert (Forall (λ kg : K * list A, ∃ r, head kg.2 = Some r ∧ key r = kg.1)
              (partition_by key df)) as Hall.
    { apply Forall_forall. intros [k g] Hg.
      apply (elem_of_group_by true) in Hg as Hg'. destruct Hg' as [_ ->].
      apply (group_by_nonempty true) in Hg.
      destruct (filter _ df) as [|r g] eqn:Hf; [done|]. exists r.
      split; [done|].
      assert (r ∈ filter (λ r, key r = k) df) as Hr by (rewrite Hf; left).
      by apply list_elem_of_filter in Hr as [? _]. }
    induction Hall as [|kg gs (r & Hr & Hk) _ IH]; [done|].
    csimpl. rewrite Hr. csimpl. by rewrite IH, Hk. }
  rewrite partition_by_keys. apply NoDup_first_seen.
Qed.

(** C4, the code against the claim: a claim record present in two input
    files is counted twice.  [load_events] makes every file unique on
    [id] and concatenates the files without making the result unique, so
    the claims frame holds the record twice and its group gets two fills
    and twice the total price; the same record twice in one file, or the
    record in one file only, gives one fill. *)
Theorem duplicate_record_across_files_double_counts :
  let run claims :=
    metrics_file
      (Main.main (F:=Fixed.DecFloat) (E:=Fixed.keep) (J:=Fixed.probe_left)
         Sample.lone_pharmacy claims Sample.no_reverts) in
  Loader.load_events (E:=Fixed.keep) Claim.id Sample.two_files
    = [Sample.lone_claim; Sample.lone_claim] ∧
  run Sample.one_file = Some Sample.counted_once ∧
  run Sample.same_file_twice = run Sample.one_file ∧
  run Sample.two_files = Some Sample.counted_twice ∧
  run Sample.two_files ≠ run Sample.one_file.
Proof.
  simpl. split_and!; try (vm_compute; reflexivity).
  vm_compute. discriminate.
Qed.

(** * Further properties of the code *)

(** ** loader.py *)

Section loader_facts.
Context `{E : Engine} {HE : EngineLaws E}.
Context {A : Type}.

Lemma elem_of_unique {K} `{!EqDecision K} (key : A → K) (df : list A) x :
  x ∈ unique key df → x ∈ df.
Proof.
  unfold unique. rewrite shuffle_perm, list_elem_of_omap.
  intros ([k g] & [_ ->]%elem_of_partition_by & Hx). simpl in Hx.
  destruct (filter _ df) as [|r g] eqn:Hf; [done|]. injection Hx as ->.
  assert (x ∈ filter (λ r, key r = k) df) as Hr by (rewrite Hf; left).
  by apply list_elem_of_filter in Hr as [_ ?].
Qed.

Lemma unique_keys {K} `{!EqDecision K} (key : A → K) (df : list A) k :
  k ∈ key <$> unique key df ↔ k ∈ key <$> df.
Proof.
  split.
  - intros (x & -> & Hx%elem_of_unique)%list_elem_of_fmap.
    apply list_elem_of_fmap. eauto.
  - intros Hk. unfold unique. rewrite shuffle_perm.
    assert ((k, filter (λ r, key r = k) df) ∈ partition_by key df) as Hg
      by by apply elem_of_partition_by.
    apply (group_by_nonempty true) in Hg as Hne.
    destruct (filter _ df) as [|r g] eqn:Hf; [done|].
    assert (r ∈ filter (λ r, key r = k) df) as Hr by (rewrite Hf; left).
    apply list_elem_of_filter in Hr as [<- _].
    apply list_elem_of_fmap. exists r. split; [done|].
    apply list_elem_of_omap. eexists. split; [done|]. done.
Qed.

Lemma read_dirs_readable (key : A → string) (dirs : list (Loader.Dir A)) :
  Loader.read_dirs key dirs = unique key <$> readable_files dirs.
Proof.
  unfold Loader.read_dirs, readable_files.
  induction dirs as [|[files|] dirs IH]; [done|..].
  - rewrite !bind_cons, fmap_app, IH. f_equal.
    clear IH. induction files as [|[f|] files IH]; csimpl; congruence.
  - by rewrite !bind_cons, IH.
Qed.

Lemma elem_of_readable_files (dirs : list (option (list (option A)))) df :
  df ∈ readable_files dirs ↔
  ∃ files, Some files ∈ dirs ∧ Some df ∈ files.
Proof.
  unfold readable_files. rewrite list_elem_of_bind. split.
  - intros ([files|] & Hdf & Hd); [|by apply elem_of_nil in Hdf].
    apply list_elem_of_omap in Hdf as (f & Hf & ->). eauto.
  - intros (files & Hd & Hf). exists (Some files). split; [|done].
    apply list_elem_of_omap. eauto.
Qed.

Lemma load_events_join (id : A → string) (dirs : list (Loader.Dir A)) :
  Loader.load_events id dirs = mjoin (Loader.read_dirs id dirs).
Proof. unfold Loader.load_events. by destruct (Loader.read_dirs id dirs). Qed.

(** Frames without a repeated key and without a key in common, put
    end to end, have no repeated key. *)
Lemma NoDup_join_keys {K} (key : A → K) (dfs : list (list A)) :
  Forall (λ df, NoDup (key <$> df)) dfs →
  disjoint_keys key dfs →
  NoDup (key <$> mjoin dfs).
Proof.
  induction 1 as [|df dfs Hdf _ IH]; intros Hdis; [constructor|].
  change (mjoin (df :: dfs)) with (df ++ mjoin dfs).
  rewrite fmap_app. apply NoDup_app. split_and!; [done| |].
  - intros k Hk (x & -> & (df' & Hx & Hdf')%list_elem_of_join)%list_elem_of_fmap.
    apply list_elem_of_lookup in Hdf' as [j Hj].
    assert (0 = S j); [|done].
    eapply (Hdis 0 (S j)); [done..|]. apply list_elem_of_fmap. eauto.
  - apply IH. intros i j df1 df2 k Hi Hj H1 H2.
    assert (S i = S j); [|lia]. by eapply (Hdis (S i) (S j)).
Qed.

Lemma unique_frames_keys_NoDup {K} `{!EqDecision K} (key : A → K)
    (dfs : list (list A)) :
  disjoint_keys key dfs →
  NoDup (key <$> mjoin (unique key <$> dfs)).
Proof.
  intros Hdis. apply NoDup_join_keys.
  - apply Forall_fmap, Forall_forall. intros df _. apply unique_keys_NoDup.
  - intros i j df1 df2 k.
    rewrite !list_lookup_fmap.
    destruct (dfs !! i) as [f1|] eqn:H1; [|done].
    destruct (dfs !! j) as [f2|] eqn:H2; [|done].
    intros [= <-] [= <-] Hk1 Hk2.
    apply (proj1 (unique_keys _ _ _)) in Hk1, Hk2.
    exact (Hdis i j f1 f2 k H1 H2 Hk1 Hk2).
Qed.

Lemma read_dirs_keys_NoDup (key : A → string) (dirs : list (Loader.Dir A)) :
  disjoint_keys key (readable_files dirs) →
  NoDup (key <$> mjoin (Loader.read_dirs key dirs)).
Proof.
  intros Hdis. rewrite read_dirs_readable.
  by apply unique_frames_keys_NoDup.
Qed.

Lemma readable_files_nil (dirs : list (option (list (option A)))) :
  readable_files dirs = [] ↔
  ∀ files df, Some files ∈ dirs → Some df ∉ files.
Proof.
  split.
  - intros Hnil files df Hd Hf.
    assert (df ∈ readable_files dirs) as Hin
      by (apply elem_of_readable_files; eauto).
    rewrite Hnil in Hin. by apply elem_of_nil in Hin.
  - intros Hno. apply elem_of_nil_inv.
    intros df (files & Hd & Hf)%elem_of_readable_files. by eapply Hno.
Qed.
End loader_facts.

(** A check of [disjoint_keys] that can be evaluated. *)
Lemma disjoint_keys_NoDup {A K} `{!EqDecision K} (key : A → K)
    (dfs : list (list A)) :
  NoDup (mjoin ((λ df, first_seen (key <$> df)) <$> dfs)) →
  disjoint_keys key dfs.
Proof.
  induction dfs as [|df dfs IH]; [by intros _ [|i] [|j]|].
  csimpl. rewrite NoDup_app. intros (_ & Hdis & Hnd).
  assert (∀ j df2 k, dfs !! j = Some df2 → k ∈ key <$> df →
                     k ∈ key <$> df2 → False) as Hno.
  { intros j df2 k Hj Hk Hk2. apply (Hdis k); [by apply elem_of_first_seen|].
    apply list_elem_of_join. eexists. split; [by apply elem_of_first_seen|].
    apply list_elem_of_fmap. exists df2. split; [done|].
    by eapply list_elem_of_lookup_2. }
  intros [|i] [|j] df1 df2 k; simpl.
  - done.
  - intros [= <-] Hj Hk Hk2. by destruct (Hno j df2 k).
  - intros Hi [= <-] Hk Hk2. by destruct (Hno i df1 k).
  - intros Hi Hj Hk Hk2. f_equal. by eapply (IH Hnd).
Qed.

Lemma read_dirs_nil `{E : Engine} {A : Type} (key : A → string)
    (dirs : list (Loader.Dir A)) :
  Loader.read_dirs key dirs = [] ↔
  ∀ files df, Some files ∈ dirs → Some df ∉ files.
Proof.
  unfold Loader.read_dirs. split.
  - intros Hnil files df Hd Hf.
    assert (unique key df ∈ @nil (list A)) as Hin;
      [|by apply elem_of_nil in Hin].
    rewrite <-Hnil. apply list_elem_of_bind. exists (Some files).
    split; [|done]. apply list_elem_of_omap. exists (Some df). done.
  - intros Hno. apply elem_of_nil_inv.
    intros x ([files|] & Hx & Hd)%list_elem_of_bind;
      [|by apply elem_of_nil in Hx].
    apply list_elem_of_omap in Hx as ([df|] & Hf & Hdf); [|done].
    by eapply Hno.
Qed.

Section pharmacy_files.
Context `{E : Engine}.
Implicit Types (dirs : list Loader.CsvDir) (f : Loader.Csv).

Lemma read_pharmacy_dirs_readable dirs :
  Loader.read_pharmacy_dirs dirs
  = (λ f, Loader.csv (Loader.chain_dtype f)
            (unique Pharmacy.npi (Loader.rows f))) <$> readable_files dirs.
Proof.
  unfold Loader.read_pharmacy_dirs, readable_files.
  induction dirs as [|[files|] dirs IH]; [done|..].
  - rewrite !bind_cons, fmap_app, IH. f_equal.
    clear IH. induction files as [|[f|] files IH]; csimpl; congruence.
  - by rewrite !bind_cons, IH.
Qed.

(** The three ways [load_pharmacies] ends. *)
Lemma load_pharmacies_spec dirs :
  match Loader.load_pharmacies dirs with
  | inl Loader.ValueError => readable_files dirs = []
  | inl Loader.SchemaError =>
      ∃ f1 f2, f1 ∈ readable_files dirs ∧ f2 ∈ readable_files dirs ∧
               Loader.chain_dtype f1 ≠ Loader.chain_dtype f2
  | inr df =>
      readable_files dirs ≠ [] ∧
      (∀ f1 f2, f1 ∈ readable_files dirs → f2 ∈ readable_files dirs →
                Loader.chain_dtype f1 = Loader.chain_dtype f2) ∧
      df = mjoin (unique Pharmacy.npi <$> (Loader.rows <$> readable_files dirs))
  end.
Proof.
  unfold Loader.load_pharmacies. rewrite read_pharmacy_dirs_readable.
  destruct (readable_files dirs) as [|f fs]; [done|].
  rewrite fmap_cons. unfold Loader.concat. simpl Loader.chain_dtype.
  case_decide as Hall.
  - rewrite Forall_fmap in Hall.
    change (Forall (λ f', Loader.chain_dtype f' = Loader.chain_dtype f) fs)
      in Hall.
    split_and!; [done| |].
    + assert (∀ f', f' ∈ f :: fs →
              Loader.chain_dtype f' = Loader.chain_dtype f) as Heq.
      { intros f' [->|Hf']%elem_of_cons; [done|].
        by eapply Forall_forall in Hall. }
      intros f1 f2 H1%Heq H2%Heq. congruence.
    + f_equal. rewrite !fmap_cons, <-!list_fmap_compose. simpl. f_equal.
  - rewrite Forall_fmap in Hall.
    change (¬ Forall (λ f', Loader.chain_dtype f' = Loader.chain_dtype f) fs)
      in Hall.
    apply not_Forall_Exists in Hall; [|apply _].
    apply Exists_exists in Hall as (f' & Hf' & Hne).
    exists f', f. split_and!; [by right|left|done].
Qed.

Lemma load_pharmacies_ValueError dirs :
  Loader.load_pharmacies dirs = inl Loader.ValueError ↔
  ∀ files f, Some files ∈ dirs → Some f ∉ files.
Proof.
  pose proof (load_pharmacies_spec dirs) as Hspec. split.
  - intros Hload. rewrite Hload in Hspec. by apply readable_files_nil.
  - intros Hnil%readable_files_nil. unfold Loader.load_pharmacies.
    by rewrite read_pharmacy_dirs_readable, Hnil.
Qed.

Lemma load_pharmacies_SchemaError dirs :
  Loader.load_pharmacies dirs = inl Loader.SchemaError ↔
  ∃ f1 f2, f1 ∈ readable_files dirs ∧ f2 ∈ readable_files dirs ∧
           Loader.chain_dtype f1 ≠ Loader.chain_dtype f2.
Proof.
  pose proof (load_pharmacies_spec dirs) as Hspec. split.
  - intros Hload. by rewrite Hload in Hspec.
  - intros (f1 & f2 & H1 & H2 & Hne).
    destruct (Loader.load_pharmacies dirs) as [[]|df]; [|done|].
    + rewrite Hspec in H1. by apply elem_of_nil in H1.
    + destruct Hspec as (_ & Heq & _). by destruct Hne; apply Heq.
Qed.

Lemma load_pharmacies_frame dirs :
  (∃ df, Loader.load_pharmacies dirs = inr df) ↔
  (∃ f, f ∈ readable_files dirs) ∧
  ∀ f1 f2, f1 ∈ readable_files dirs → f2 ∈ readable_files dirs →
           Loader.chain_dtype f1 = Loader.chain_dtype f2.
Proof.
  pose proof (load_pharmacies_spec dirs) as Hspec. split.
  - intros [df Hload]. rewrite Hload in Hspec.
    destruct Hspec as (Hne & Heq & _). split; [|done].
    destruct (readable_files dirs) as [|f fs]; [done|]. exists f. left.
  - intros [[f Hf] Heq].
    destruct (Loader.load_pharmacies dirs) as [[]|df]; [..|by eexists].
    + rewrite Hspec in Hf. by apply elem_of_nil in Hf.
    + destruct Hspec as (f1 & f2 & H1 & H2 & Hne). by destruct Hne; apply Heq.
Qed.
End pharmacy_files.

(** X1: the ways [load_pharmacies] ends.  It raises its [ValueError]
    exactly when no directory that exists holds a readable file; it
    raises the [SchemaError] of [pl.concat] exactly when two of the files
    read differ in the dtype inferred for [chain]; and it returns a frame
    in the remaining case, when a file was read and all files read agree
    on that dtype.  [load_events] has no such error and returns the
    empty frame when no file could be read. *)
Theorem load_pharmacies_errors `{F : Float64} `{E : Engine}
    (dirs : list Loader.CsvDir) (events : list (Loader.Dir Claim.t)) :
  (Loader.load_pharmacies dirs = inl Loader.ValueError ↔
   ∀ files f, Some files ∈ dirs → Some f ∉ files) ∧
  (Loader.load_pharmacies dirs = inl Loader.SchemaError ↔
   ∃ f1 f2, f1 ∈ readable_files dirs ∧ f2 ∈ readable_files dirs ∧
            Loader.chain_dtype f1 ≠ Loader.chain_dtype f2) ∧
  ((∃ df, Loader.load_pharmacies dirs = inr df) ↔
   (∃ f, f ∈ readable_files dirs) ∧
   ∀ f1 f2, f1 ∈ readable_files dirs → f2 ∈ readable_files dirs →
            Loader.chain_dtype f1 = Loader.chain_dtype f2) ∧
  ((∀ files df, Some files ∈ events → Some df ∉ files) →
   Loader.load_events Claim.id events = []).
Proof.
  split_and!.
  - apply load_pharmacies_ValueError.
  - apply load_pharmacies_SchemaError.
  - apply load_pharmacies_frame.
  - intros Hno. apply (read_dirs_nil Claim.id) in Hno.
    unfold Loader.load_events. by rewrite Hno.
Qed.

(** Paths that hold no readable file; and the sample pharmacies beside
    a file whose chains are numbers. *)
Lemma load_pharmacies_errors_witness :
  (∀ files df, Some files ∈ Sample.unreadable_claims → Some df ∉ files) ∧
  Loader.load_events (E:=Fixed.flip) Claim.id Sample.unreadable_claims = [] ∧
  Loader.load_pharmacies (E:=Fixed.flip) Sample.unreadable_pharmacies
    = inl Loader.ValueError ∧
  Loader.load_pharmacies (E:=Fixed.flip) Sample.mixed_pharmacy_dirs
    = inl Loader.SchemaError ∧
  ∃ df, Loader.load_pharmacies (E:=Fixed.flip) Sample.pharmacy_dirs = inr df.
Proof.
  assert (∀ files df, Some files ∈ Sample.unreadable_claims → Some df ∉ files)
    as Hno.
  { intros files df Hd Hf.
    apply list_elem_of_In in Hd; simpl in Hd.
    destruct Hd as [Hd|[Hd|[]]]; [discriminate|]. injection Hd as <-.
    apply list_elem_of_In in Hf; simpl in Hf.
    destruct Hf as [Hf|[]]. discriminate. }
  split; [exact Hno|]. split.
  - exact (proj2 (proj2 (proj2 (load_pharmacies_errors (E:=Fixed.flip)
             Sample.unreadable_pharmacies Sample.unreadable_claims))) Hno).
  - split; [reflexivity|]. split; [reflexivity|]. eexists. reflexivity.
Defined.

(** X2: [load_events] invents no row and loses no key: every row of the
    frame it returns is a row of a readable file of a directory that
    exists, and the [id]s of the frame are exactly the [id]s found in
    those files. *)
Theorem load_events_rows `{E : Engine} {A : Type}
    (id : A → string) (dirs : list (Loader.Dir A)) :
  EngineLaws E →
  (∀ x, x ∈ Loader.load_events id dirs →
     ∃ files df, Some files ∈ dirs ∧ Some df ∈ files ∧ x ∈ df) ∧
  (∀ k, k ∈ id <$> Loader.load_events id dirs ↔
     ∃ files df, Some files ∈ dirs ∧ Some df ∈ files ∧ k ∈ id <$> df).
Proof.
  intros HE. rewrite load_events_join, read_dirs_readable.
  assert (∀ x, x ∈ mjoin (unique id <$> readable_files dirs) ↔
    ∃ df, df ∈ readable_files dirs ∧ x ∈ unique id df) as Hjoin.
  { intros x. rewrite list_elem_of_join. split.
    - intros (l & Hx & (df & -> & Hdf)%list_elem_of_fmap). eauto.
    - intros (df & Hdf & Hx). eexists. split; [done|].
      apply list_elem_of_fmap. eauto. }
  split.
  - intros x (df & (files & ? & ?)%elem_of_readable_files & Hx%elem_of_unique)%Hjoin.
    eauto.
  - intros k. rewrite list_elem_of_fmap. split.
    + intros (x & -> & (df & (files & ? & ?)%elem_of_readable_files & Hx%elem_of_unique)%Hjoin).
      exists files, df. split_and!; [done..|]. apply list_elem_of_fmap. eauto.
    + intros (files & df & Hd & Hf & Hk).
      apply (proj2 (unique_keys id df k)) in Hk.
      apply list_elem_of_fmap in Hk as (x & -> & Hx).
      exists x. split; [done|]. apply Hjoin. exists df. split; [|done].
      apply elem_of_readable_files. eauto.
Qed.

(** The sample claims, loaded from their directories. *)
Lemma load_events_rows_witness :
  EngineLaws Fixed.flip ∧
  (∀ x, x ∈ Loader.load_events (E:=Fixed.flip) Claim.id Sample.claim_dirs →
     ∃ files df, Some files ∈ Sample.claim_dirs ∧ Some df ∈ files ∧ x ∈ df) ∧
  (∀ k, k ∈ Claim.id
          <$> Loader.load_events (E:=Fixed.flip) Claim.id Sample.claim_dirs ↔
     ∃ files df, Some files ∈ Sample.claim_dirs ∧ Some df ∈ files
                 ∧ k ∈ Claim.id <$> df).
Proof.
  split; [exact flip_laws|].
  exact (load_events_rows Claim.id Sample.claim_dirs flip_laws).
Defined.

(** X3: when no [id] occurs in two of the files read, the frame
    [load_events] returns has no repeated [id] (a repetition inside one
    file is removed by the per-file [unique]). *)
Theorem load_events_ids_NoDup `{E : Engine} {A : Type}
    (id : A → string) (dirs : list (Loader.Dir A)) :
  EngineLaws E →
  disjoint_keys id (readable_files dirs) →
  NoDup (id <$> Loader.load_events id dirs).
Proof.
  intros HE Hdis. rewrite load_events_join. by apply read_dirs_keys_NoDup.
Qed.

(** The sample claims lie in two files without a common [id]. *)
Lemma load_events_ids_NoDup_witness :
  EngineLaws Fixed.flip ∧
  disjoint_keys Claim.id (readable_files Sample.claim_dirs) ∧
  NoDup (Claim.id
           <$> Loader.load_events (E:=Fixed.flip) Claim.id Sample.claim_dirs).
Proof.
  assert (disjoint_keys Claim.id (readable_files Sample.claim_dirs)) as Hdis.
  { apply disjoint_keys_NoDup, (bool_decide_unpack _). vm_compute. exact I. }
  split; [exact flip_laws|]. split; [exact Hdis|].
  exact (load_events_ids_NoDup Claim.id Sample.claim_dirs flip_laws Hdis).
Defined.

(** X4: when no [npi] occurs in two of the files read, the frame
    [load_pharmacies] returns has one row per [npi]. *)
Theorem load_pharmacies_npis_NoDup `{E : Engine}
    (dirs : list Loader.CsvDir) (df : list Pharmacy.t) :
  EngineLaws E →
  disjoint_keys Pharmacy.npi (Loader.rows <$> readable_files dirs) →
  Loader.load_pharmacies dirs = inr df →
  NoDup (Pharmacy.npi <$> df).
Proof.
  intros HE Hdis Hload.
  pose proof (load_pharmacies_spec dirs) as Hspec. rewrite Hload in Hspec.
  destruct Hspec as (_ & _ & ->). by apply unique_frames_keys_NoDup.
Qed.

(** The sample pharmacies lie in two files without a common [npi]. *)
Lemma load_pharmacies_npis_NoDup_witness :
  let df := [Pharmacy.mk "2" "B"; Pharmacy.mk "1" "A";
             Pharmacy.mk "4" "D"; Pharmacy.mk "3" "C"] in
  EngineLaws Fixed.flip ∧
  disjoint_keys Pharmacy.npi
    (Loader.rows <$> readable_files Sample.pharmacy_dirs) ∧
  Loader.load_pharmacies (E:=Fixed.flip) Sample.pharmacy_dirs = inr df ∧
  NoDup (Pharmacy.npi <$> df).
Proof.
  intros df.
  assert (disjoint_keys Pharmacy.npi
            (Loader.rows <$> readable_files Sample.pharmacy_dirs)) as Hdis.
  { apply disjoint_keys_NoDup, (bool_decide_unpack _). vm_compute. exact I. }
  assert (Loader.load_pharmacies (E:=Fixed.flip) Sample.pharmacy_dirs = inr df)
    as Hload by (vm_compute; reflexivity).
  split; [exact flip_laws|]. split; [exact Hdis|]. split; [exact Hload|].
  exact (load_pharmacies_npis_NoDup Sample.pharmacy_dirs df flip_laws Hdis Hload).
Defined.

(** ** processor.py: the join *)

Section join_facts.
Context {A K : Type} `{!EqDecision K}.

Lemma filter_eq_NoDup (l : list K) (k : K) :
  NoDup l → filter (λ n, n = k) l = if decide (k ∈ l) then [k] else [].
Proof.
  induction 1 as [|a l Ha Hl IH]; [done|].
  rewrite filter_cons, IH. destruct (decide (a = k)) as [->|Hne].
  - rewrite decide_False by done. rewrite decide_True by left. done.
  - destruct (decide (k ∈ l)) as [Hk|Hk].
    + rewrite decide_True by by right. done.
    + rewrite decide_False; [done|].
      rewrite elem_of_cons. naive_solver.
Qed.

Lemma length_filter_split (P : A → Prop) `{!∀ x, Decision (P x)} (l : list A) :
  length l = length (filter P l) + length (filter (λ x, ¬ P x) l).
Proof. by rewrite <-length_app, filter_app_complement. Qed.

(** The groups of the keys [ks], put end to end, are the frame again. *)
Lemma groups_join_perm (key : A → K) (ks : list K) : ∀ df : list A,
  NoDup ks → (∀ r, r ∈ df → key r ∈ ks) →
  mjoin ((λ k, filter (λ r, key r = k) df) <$> ks) ≡ₚ df.
Proof.
  induction ks as [|k ks IH]; intros df Hnd Hcov.
  - destruct df as [|r df]; [done|].
    destruct (not_elem_of_nil (key r)). apply Hcov. left.
  - apply NoDup_cons in Hnd as [Hk Hnd]. csimpl.
    etrans; [|apply (filter_app_complement (λ r, key r = k) df)].
    f_equiv. etrans; [|apply (IH (filter (λ r, key r ≠ k) df)); [done|]].
    + match goal with |- ?x ≡ₚ ?y => assert (x = y) as ->; [|done] end.
      f_equal. apply list_fmap_ext.
      intros _ k' Hk'%list_elem_of_lookup_2.
      rewrite list_filter_filter. apply list_filter_iff.
      intros r. split; [|naive_solver]. intros ->. split; [done|].
      by intros ->.
    + intros r [Hne Hr%Hcov]%list_elem_of_filter.
      apply elem_of_cons in Hr as [?|?]; done.
Qed.

Lemma sum_list_perm (l1 l2 : list nat) : l1 ≡ₚ l2 → sum_list l1 = sum_list l2.
Proof. induction 1; simpl; lia. Qed.
End join_facts.

(** X5: when the pharmacy frame has one row per [npi], the join of
    [filter_to_pharmacy_dataset] is a filter: the frame it returns holds
    the claims of known pharmacies, each as often as the claims frame
    does (in the order the join gives them), the number [dropped] is the
    number of claims of unknown pharmacies, and the dropped-claims
    message is logged exactly when there is such a claim. *)
Theorem filter_to_pharmacy_dataset_unique_npis `{F : Float64} `{J : Joiner}
    (df_claims : list Claim.t) (df_pharmacies : list Pharmacy.t) :
  JoinerLaws J →
  NoDup (Pharmacy.npi <$> df_pharmacies) →
  let known c := Claim.npi c ∈ Pharmacy.npi <$> df_pharmacies in
  filter_to_pharmacy_dataset df_claims df_pharmacies ≡ₚ filter known df_claims ∧
  dropped_claims df_claims df_pharmacies
    = Z.of_nat (length (filter (λ c, ¬ known c) df_claims)) ∧
  (dropped_log df_claims df_pharmacies = None ↔
   ∀ c, c ∈ df_claims → known c).
Proof.
  intros HJ Hnd known.
  assert (filter_to_pharmacy_dataset df_claims df_pharmacies
          ≡ₚ filter known df_claims) as Hjoin.
  { unfold filter_to_pharmacy_dataset, join_inner. rewrite inner_order_perm.
    match goal with |- ?x ≡ₚ ?y => assert (x = y) as ->; [|done] end.
    induction df_claims as [|c l IH]; [done|].
    rewrite bind_cons, IH, filter_cons, filter_eq_NoDup by done.
    unfold known at 2. by destruct (decide (Claim.npi c ∈ _)). }
  assert (dropped_claims df_claims df_pharmacies
          = Z.of_nat (length (filter (λ c, ¬ known c) df_claims))) as Hdrop.
  { unfold dropped_claims. rewrite Hjoin.
    rewrite (length_filter_split known df_claims) at 1. lia. }
  split_and!; [done..|].
  unfold dropped_log. rewrite Hdrop. case_decide as Hz.
  - split; [intros _|done]. intros c Hc.
    destruct (decide (known c)) as [|Hk]; [done|].
    assert (0 < length (filter (λ c, ¬ known c) df_claims))
      by (apply filter_nonempty; eauto).
    lia.
  - split; [done|]. intros Hall. destruct Hz.
    rewrite filter_none; [done|]. apply Forall_forall. naive_solver.
Qed.

(** On the sample, with a join that returns the rows from the last to
    the first: one claim of an unknown pharmacy is dropped. *)
Lemma filter_to_pharmacy_dataset_unique_npis_witness :
  let known c := Claim.npi c ∈ Pharmacy.npi <$> Sample.pharmacies in
  JoinerLaws Fixed.probe_back ∧
  NoDup (Pharmacy.npi <$> Sample.pharmacies) ∧
  dropped_log (J:=Fixed.probe_back) Sample.claims Sample.pharmacies
    = Some 1%Z ∧
  filter_to_pharmacy_dataset (J:=Fixed.probe_back)
    Sample.claims Sample.pharmacies = reverse (drop 1 Sample.claims) ∧
  filter_to_pharmacy_dataset (J:=Fixed.probe_back)
    Sample.claims Sample.pharmacies ≡ₚ filter known Sample.claims ∧
  dropped_claims (J:=Fixed.probe_back) Sample.claims Sample.pharmacies
    = Z.of_nat (length (filter (λ c, ¬ known c) Sample.claims)) ∧
  (dropped_log (J:=Fixed.probe_back) Sample.claims Sample.pharmacies = None ↔
   ∀ c, c ∈ Sample.claims → known c).
Proof.
  intros known.
  assert (NoDup (Pharmacy.npi <$> Sample.pharmacies)) as Hnd.
  { apply (bool_decide_unpack _). vm_compute. exact I. }
  split; [exact probe_back_laws|].
  split; [exact Hnd|]. split; [vm_compute; reflexivity|].
  split; [vm_compute; reflexivity|].
  exact (filter_to_pharmacy_dataset_unique_npis
           Sample.claims Sample.pharmacies probe_back_laws Hnd).
Defined.

(** ** processor.py: totals of the metrics report *)

(** X6: every enriched claim is counted in exactly one row of the
    metrics report: the [fills] of the rows add up to the number of
    claims, and the [reverted] of the rows to the number of claims with
    [is_reverted] true. *)
Theorem metrics_fills_total `{F : Float64} `{E : Engine}
    (df : list Enriched.t) :
  EngineLaws E →
  sum_list (Metric.fills <$> compute_npi_ndc_metrics df) = length df ∧
  sum_list (Metric.reverted <$> compute_npi_ndc_metrics df)
    = length (filter (λ c, Enriched.is_reverted c = true) df).
Proof.
  intros HE.
  set (key := λ c : Enriched.t, (Enriched.npi c, Enriched.ndc c)).
  assert (∀ (f : Metric.t → nat) (h : list Enriched.t → nat),
    (∀ kg, f (metrics_select (metrics_agg kg, metrics_avg_price (metrics_agg kg)))
           = h kg.2) →
    sum_list (f <$> compute_npi_ndc_metrics df)
    = sum_list ((λ k, h (filter (λ r, key r = k) df))
                  <$> first_seen (key <$> df))) as Hsum.
  { intros f h Hf. apply sum_list_perm. unfold compute_npi_ndc_metrics.
    rewrite sort_perm, <-!list_fmap_compose, (group_by_perm false).
    unfold partition_by. rewrite <-list_fmap_compose.
    match goal with |- ?x ≡ₚ ?y => assert (x = y) as ->; [|done] end.
    apply list_fmap_ext. intros _ k _. simpl. by rewrite Hf. }
  split.
  - rewrite (Hsum _ length) by done.
    transitivity (sum_list (length <$>
      ((λ k, filter (λ r, key r = k) df) <$> first_seen (key <$> df))));
      [by rewrite <-list_fmap_compose|].
    rewrite <-length_join.
    apply Permutation_length, groups_join_perm; [apply NoDup_first_seen|].
    intros r Hr. apply elem_of_first_seen, list_elem_of_fmap. eauto.
  - rewrite (Hsum _ (λ g, length (filter (λ c, Enriched.is_reverted c = true) g)))
      by done.
    set (rev := filter (λ c, Enriched.is_reverted c = true) df).
    transitivity (sum_list (length <$>
      ((λ k, filter (λ r, key r = k) rev) <$> first_seen (key <$> df)))).
    + rewrite <-list_fmap_compose. f_equal. apply list_fmap_ext.
      intros _ k _. simpl. f_equal. unfold rev.
      rewrite !list_filter_filter. apply list_filter_iff. naive_solver.
    + rewrite <-length_join.
      apply Permutation_length, groups_join_perm; [apply NoDup_first_seen|].
      intros r [_ Hr]%list_elem_of_filter.
      apply elem_of_first_seen, list_elem_of_fmap. eauto.
Qed.

(** On the sample: six claims are kept, one of them reverted. *)
Lemma metrics_fills_total_witness :
  EngineLaws Fixed.flip ∧
  length Sample.enriched = 6 ∧
  sum_list (Metric.fills <$> compute_npi_ndc_metrics (E:=Fixed.flip) Sample.enriched)
    = length Sample.enriched ∧
  sum_list (Metric.reverted
              <$> compute_npi_ndc_metrics (E:=Fixed.flip) Sample.enriched)
    = length (filter (λ c, Enriched.is_reverted c = true) Sample.enriched).
Proof.
  split; [exact flip_laws|]. split; [reflexivity|].
  exact (metrics_fills_total Sample.enriched flip_laws).
Defined.

(** ** processor.py: the reports and the pharmacies *)

Section known_facts.
Context `{F : Float64}.
Implicit Types (df : list Enriched.t) (ph : list Pharmacy.t).

(** A row of the left join: its claim, and the chain of a pharmacy
    with the claim's [npi] or null when there is none. *)
Lemma with_chain_inv df ph r :
  r ∈ with_chain df ph →
  WithChain.row r ∈ df ∧
  ((∃ p, p ∈ ph ∧ Pharmacy.npi p = Enriched.npi (WithChain.row r)
         ∧ WithChain.chain r = Some (Pharmacy.chain p)) ∨
   ((∀ p, p ∈ ph → Pharmacy.npi p ≠ Enriched.npi (WithChain.row r))
    ∧ WithChain.chain r = None)).
Proof.
  unfold with_chain, join_left.
  intros (c & Hr & Hc)%list_elem_of_bind.
  destruct (filter _ ph) as [|p ps] eqn:Hf.
  - apply list_elem_of_singleton in Hr as ->. simpl. split; [done|]. right.
    split; [|done]. intros p Hp Hnpi.
    by eapply (filter_nil_not_elem_of _ _ p Hf).
  - apply list_elem_of_fmap in Hr as (o & -> & (p' & -> & Hp')%list_elem_of_fmap).
    simpl. split; [done|]. left. exists p'.
    rewrite <-Hf in Hp'. apply list_elem_of_filter in Hp' as [? ?]. done.
Qed.

Lemma with_chain_unmatched df ph :
  (∀ c p, c ∈ df → p ∈ ph → Pharmacy.npi p ≠ Enriched.npi c) →
  with_chain df ph = (λ c, WithChain.mk c None) <$> df.
Proof.
  unfold with_chain, join_left. induction df as [|c df IH]; [done|].
  intros Hno. rewrite bind_cons, fmap_cons, IH.
  - rewrite filter_none; [done|]. apply Forall_forall. intros p Hp.
    apply Hno; [left|done].
  - intros c' p Hc'. apply Hno. by right.
Qed.

Lemma chain_group_unmatched df ph d c :
  (∀ c p, c ∈ df → p ∈ ph → Pharmacy.npi p ≠ Enriched.npi c) →
  chain_group df ph d c
  = match c with
    | None => (λ x, WithChain.mk x None) <$> drug_claims df d
    | Some _ => []
    end.
Proof.
  intros Hno. unfold chain_group.
  rewrite with_chain_unmatched, filter_fmap by done. destruct c as [c|].
  - rewrite filter_none; [done|].
    apply Forall_forall. by intros x _ [_ ?].
  - f_equal. apply list_filter_iff. intros x. unfold WithChain.ndc. simpl.
    naive_solver.
Qed.

Lemma candidate_functional df ph d c p1 p2 :
  candidate df ph d c p1 → candidate df ph d c p2 → p1 = p2.
Proof. by intros (_ & _ & ->) (_ & _ & ->). Qed.

Lemma candidate_claim df ph d c p :
  candidate df ph d c p →
  ∃ r, r ∈ with_chain df ph ∧ WithChain.ndc r = d ∧ WithChain.chain r = c.
Proof.
  intros (Hne & _). destruct (chain_group df ph d c) as [|r g] eqn:Hg; [done|].
  assert (r ∈ chain_group df ph d c) as Hr by (rewrite Hg; left).
  apply list_elem_of_filter in Hr as [[? ?] ?]. eauto.
Qed.

Lemma NoDup_all_equal {A} (l : list A) (a : A) :
  NoDup l → l ≠ [] → (∀ x, x ∈ l → x = a) → l = [a].
Proof.
  intros Hnd Hne Hall. destruct l as [|x [|y l]]; [done|..].
  - f_equal. apply Hall. left.
  - apply NoDup_cons in Hnd as [Hx _]. destruct Hx.
    rewrite (Hall x), (Hall y); [left|right; left|left].
Qed.

Lemma metrics_ndcs `{E : Engine} {HE : EngineLaws E} df d :
  d ∈ Metric.ndc <$> compute_npi_ndc_metrics df ↔
  ∃ c, c ∈ df ∧ Enriched.ndc c = d.
Proof.
  rewrite list_elem_of_fmap. setoid_rewrite elem_of_metrics. split.
  - intros (row & -> & c & Hc & ->). eauto.
  - intros (c & Hc & <-). eexists. split; [|eauto]. done.
Qed.

Lemma insights_ndcs `{E : Engine} {HE : EngineLaws E} {HF : Float64Laws F}
    df d :
  d ∈ Insight.ndc <$> quantity_modes (marked_rows df) ↔
  ∃ c, c ∈ df ∧ Enriched.ndc c = d.
Proof.
  destruct (quantity_insights_spec df) as (_ & _ & Hel).
  rewrite list_elem_of_fmap. split.
  - intros (row & -> & [Hd _]%Hel). done.
  - intros Hd.
    exists (Insight.mk d (sort (λ q : num, q) fleb
      (drop_nulls (QtyCount.mode_qty <$> mark_modes (drug_counts df d))))).
    split; [done|]. apply Hel. simpl. split; [done|]. apply sorted_modes_code.
Qed.

Lemma shuffle_nil `{E : Engine} {HE : EngineLaws E} (A : Type) :
  shuffle A [] = [].
Proof. apply Permutation_nil_r. by rewrite shuffle_perm. Qed.
End known_facts.

(** X7: in the files [run_pharmacy_analytics] writes every metrics row
    belongs to a pharmacy of the pharmacy frame, and every chain listed
    for a drug is the chain of a pharmacy of the frame: after the inner
    join the left join always finds a match, so no chain name is null.
    The two files are written in every run. *)
Theorem run_reports_known_pharmacies `{F : Float64} `{E : Engine}
    `{J : Joiner}
    (df_claims : list Claim.t) (df_reverts : list Revert.t)
    (df_pharmacies : list Pharmacy.t) :
  Float64Laws F → EngineLaws E → JoinerLaws J →
  let files := run_pharmacy_analytics df_claims df_reverts df_pharmacies in
  ∃ metrics chains,
    Reports.npi_metrics files = Some metrics ∧
    Reports.chain_recommendations files = Some chains ∧
    (∀ row, row ∈ metrics →
       ∃ p, p ∈ df_pharmacies ∧ Pharmacy.npi p = Metric.npi row) ∧
    (∀ row e, row ∈ chains → e ∈ DrugChains.chain row →
       ∃ p, p ∈ df_pharmacies ∧ ChainEntry.name e = Some (Pharmacy.chain p)).
Proof.
  intros HF HE HJ. simpl. unfold run_pharmacy_analytics.
  set (df := mark_reverted_claims _ _).
  assert (∀ c, c ∈ df →
    ∃ p, p ∈ df_pharmacies ∧ Pharmacy.npi p = Enriched.npi c) as Hknown.
  { intros c (c' & -> & Hc')%list_elem_of_fmap.
    by apply elem_of_filter_to_pharmacy_dataset in Hc' as [_ ?]. }
  destruct (chain_recommendations_spec df df_pharmacies)
    as (out & -> & _ & _ & Hel).
  eexists _, _. split; [done|]. split; [done|]. split.
  - intros row (c & Hc & ->)%elem_of_metrics. by apply Hknown.
  - intros row e (L & _ & (_ & _ & HL) & ->)%Hel
      ([p c] & -> & Hpc%subseteq_take)%list_elem_of_fmap.
    apply HL, candidate_claim in Hpc as (r & Hr & _ & Hc).
    apply with_chain_inv in Hr as [Hrow [(p' & ? & _ & Hch)|[Hno _]]].
    + exists p'. split; [done|]. simpl. congruence.
    + destruct (Hknown _ Hrow) as (p' & Hp' & Hnpi). by destruct (Hno p').
Qed.

(** The sample: claim [c0] names no pharmacy of the frame. *)
Lemma run_reports_known_pharmacies_witness :
  let files := run_pharmacy_analytics (E:=Fixed.flip) (J:=Fixed.probe_back)
                 Sample.claims Sample.reverts Sample.pharmacies in
  Float64Laws Fixed.DecFloat ∧ EngineLaws Fixed.flip ∧
  JoinerLaws Fixed.probe_back ∧
  ∃ metrics chains,
    Reports.npi_metrics files = Some metrics ∧
    Reports.chain_recommendations files = Some chains ∧
    (∀ row, row ∈ metrics →
       ∃ p, p ∈ Sample.pharmacies ∧ Pharmacy.npi p = Metric.npi row) ∧
    (∀ row e, row ∈ chains → e ∈ DrugChains.chain row →
       ∃ p, p ∈ Sample.pharmacies
            ∧ ChainEntry.name e = Some (Pharmacy.chain p)).
Proof.
  intros files.
  split; [exact DecFloat_laws|]. split; [exact flip_laws|].
  split; [exact probe_back_laws|].
  exact (run_reports_known_pharmacies Sample.claims Sample.reverts
           Sample.pharmacies DecFloat_laws flip_laws probe_back_laws).
Defined.

(** X8: [compute_chain_recommendations] keeps the claims the left join
    leaves without a pharmacy: when no claim has a pharmacy in the
    frame, every drug whose claims have positive total quantity gets a
    row, and the row lists one chain, with a null name and the average
    unit price over all the claims of the drug. *)
Theorem chain_recommendations_unmatched `{F : Float64} `{E : Engine}
    (df : list Enriched.t) (ph : list Pharmacy.t) :
  Float64Laws F → EngineLaws E →
  (∀ c p, c ∈ df → p ∈ ph → Pharmacy.npi p ≠ Enriched.npi c) →
  ∃ out, compute_chain_recommendations df ph = Some out ∧
    ∀ row, row ∈ out ↔
      let g := drug_claims df (DrugChains.ndc row) in
      g ≠ [] ∧
      gt0 (fsum (Enriched.quantity <$> g)) = true ∧
      DrugChains.chain row
        = [ChainEntry.mk None
             (round2 (fdiv (fsum (Enriched.price <$> g))
                           (fsum (Enriched.quantity <$> g))))].
Proof.
  intros HF HE Hno.
  destruct (chain_recommendations_spec df ph) as (out & -> & _ & _ & Hel).
  exists out. split; [done|].
  assert (∀ d c p, candidate df ph d c p ↔
    c = None ∧ drug_claims df d ≠ [] ∧
    gt0 (fsum (Enriched.quantity <$> drug_claims df d)) = true ∧
    p = round2 (fdiv (fsum (Enriched.price <$> drug_claims df d))
                     (fsum (Enriched.quantity <$> drug_claims df d))))
    as Hcand.
  { intros d c p. unfold candidate.
    rewrite chain_group_unmatched by done. destruct c as [c|].
    - naive_solver.
    - rewrite <-!list_fmap_compose.
      change (WithChain.quantity ∘ _) with Enriched.quantity.
      change (WithChain.price ∘ _) with Enriched.price.
      assert ((λ c, WithChain.mk c None) <$> drug_claims df d ≠ []
              ↔ drug_claims df d ≠ []) as ->; [|naive_solver].
      by destruct (drug_claims df d). }
  intros row. rewrite Hel. simpl. split.
  - intros (L & Hne & (Hnd & _ & HL) & ->).
    destruct L as [|[p c] L'] eqn:HeqL; [done|].
    assert (candidate df ph (DrugChains.ndc row) c p) as Hc
      by (apply HL; left).
    apply Hcand in Hc as (-> & Hg & Hq & Hp). split_and!; [done..|].
    rewrite <-HeqL.
    assert (L = [(p, None)]) as ->.
    { apply NoDup_all_equal; [by subst..|]. subst L.
      intros [p' c'] (-> & _ & _ & ->)%HL%Hcand. by rewrite Hp. }
    simpl. by rewrite Hp.
  - intros (Hg & Hq & Hrow).
    exists [(round2 (fdiv
      (fsum (Enriched.price <$> drug_claims df (DrugChains.ndc row)))
      (fsum (Enriched.quantity <$> drug_claims df (DrugChains.ndc row)))),
      None)].
    split_and!; [done| |exact Hrow].
    split_and!.
    + apply NoDup_singleton.
    + repeat constructor.
    + intros p c. rewrite list_elem_of_singleton, Hcand. naive_solver.
Qed.

(** The sample claims against an empty pharmacy frame: drug [d1] has
    total price 31.00 and total quantity 10.00, drug [d2] has total
    quantity 0.00. *)
Lemma chain_recommendations_unmatched_witness :
  let df := Sample.enriched in
  let ph : list Pharmacy.t := [] in
  Float64Laws Fixed.DecFloat ∧ EngineLaws Fixed.flip ∧
  (∀ c p, c ∈ df → p ∈ ph → Pharmacy.npi p ≠ Enriched.npi c) ∧
  compute_chain_recommendations (E:=Fixed.flip) df ph
    = Some Sample.unmatched_report ∧
  ∃ out, compute_chain_recommendations (E:=Fixed.flip) df ph = Some out ∧
    ∀ row, row ∈ out ↔
      let g := drug_claims df (DrugChains.ndc row) in
      g ≠ [] ∧
      gt0 (fsum (Enriched.quantity <$> g)) = true ∧
      DrugChains.chain row
        = [ChainEntry.mk None
             (round2 (fdiv (fsum (Enriched.price <$> g))
                           (fsum (Enriched.quantity <$> g))))].
Proof.
  intros df ph.
  assert (∀ c p, c ∈ df → p ∈ ph → Pharmacy.npi p ≠ Enriched.npi c) as Hno.
  { intros c p _ Hp. by apply elem_of_nil in Hp. }
  split; [exact DecFloat_laws|]. split; [exact flip_laws|].
  split; [exact Hno|]. split; [vm_compute; reflexivity|].
  exact (chain_recommendations_unmatched df ph DecFloat_laws flip_laws Hno).
Defined.

(** ** processor.py: edge cases of the pipeline *)

Section empty_facts.
Context `{F : Float64} `{E : Engine} {HE : EngineLaws E}.

Lemma compute_npi_ndc_metrics_nil : compute_npi_ndc_metrics [] = [].
Proof.
  unfold compute_npi_ndc_metrics, sort, group_by.
  repeat first [rewrite shuffle_nil | progress cbn]. done.
Qed.

Lemma compute_chain_recommendations_nil ph :
  compute_chain_recommendations [] ph = Some [].
Proof.
  unfold compute_chain_recommendations, chain_agg_sorted, chain_agg,
    sort, group_by, with_chain, join_left.
  repeat first [rewrite shuffle_nil | progress cbn]. done.
Qed.

End empty_facts.

(** X9: when no claim belongs to a pharmacy of the frame (in particular
    when there is no claim, or no pharmacy), [run_pharmacy_analytics]
    writes a metrics file and a chain file without rows and then ends in
    the exception of [map_groups], so that no quantity file is written,
    whatever the reverts are. *)
Theorem run_without_known_claims `{F : Float64} `{E : Engine} `{J : Joiner}
    (df_claims : list Claim.t) (df_reverts : list Revert.t)
    (df_pharmacies : list Pharmacy.t) :
  EngineLaws E → JoinerLaws J →
  (∀ c p, c ∈ df_claims → p ∈ df_pharmacies →
          Pharmacy.npi p ≠ Claim.npi c) →
  run_pharmacy_analytics df_claims df_reverts df_pharmacies
  = Reports.mk (Some []) (Some []) None.
Proof.
  intros HE HJ Hno. unfold run_pharmacy_analytics.
  rewrite (proj2 (filter_to_pharmacy_dataset_nil df_claims df_pharmacies) Hno).
  change (mark_reverted_claims [] df_reverts) with (@nil Enriched.t).
  rewrite compute_npi_ndc_metrics_nil, compute_chain_recommendations_nil.
  f_equal. unfold compute_quantity_insights, quantity_marked, quantity_counts,
    group_by, map_groups.
  simpl partition_by. by rewrite shuffle_nil.
Qed.

(** The sample claims and reverts with no pharmacy. *)
Lemma run_without_known_claims_witness :
  let ph : list Pharmacy.t := [] in
  EngineLaws Fixed.flip ∧ JoinerLaws Fixed.probe_back ∧
  (∀ c p, c ∈ Sample.claims → p ∈ ph → Pharmacy.npi p ≠ Claim.npi c) ∧
  run_pharmacy_analytics (E:=Fixed.flip) (J:=Fixed.probe_back)
    Sample.claims Sample.reverts ph
  = Reports.mk (Some []) (Some []) None.
Proof.
  intros ph.
  assert (∀ c p, c ∈ Sample.claims → p ∈ ph → Pharmacy.npi p ≠ Claim.npi c)
    as Hno.
  { intros c p _ Hp. by apply elem_of_nil in Hp. }
  split; [exact flip_laws|]. split; [exact probe_back_laws|].
  split; [exact Hno|].
  exact (run_without_known_claims Sample.claims Sample.reverts ph
           flip_laws probe_back_laws Hno).
Defined.

(** ** main.py *)

(** X10: the ways [main] ends.  It ends with the [ValueError] of
    [load_pharmacies], no report written, exactly when no pharmacy
    directory holds a readable file, and with the [SchemaError] of
    [pl.concat], no report written, exactly when two pharmacy files read
    differ in the dtype of [chain].  Otherwise the pipeline runs on the
    loaded frames and writes the metrics file and the chain file; the
    quantity file is written, and [main] returns, exactly when some
    loaded claim belongs to a loaded pharmacy.  Missing directories and
    unreadable files on the claim and revert paths only leave frames
    empty. *)
Theorem main_outcomes `{F : Float64} `{E : Engine} `{J : Joiner}
    (pharmacy : list Loader.CsvDir)
    (claims : list (Loader.Dir Claim.t))
    (reverts : list (Loader.Dir Revert.t)) :
  Float64Laws F → EngineLaws E → JoinerLaws J →
  (Main.main pharmacy claims reverts = inl Loader.ValueError ↔
   ∀ files f, Some files ∈ pharmacy → Some f ∉ files) ∧
  (Main.main pharmacy claims reverts = inl Loader.SchemaError ↔
   ∃ f1 f2, f1 ∈ readable_files pharmacy ∧ f2 ∈ readable_files pharmacy ∧
            Loader.chain_dtype f1 ≠ Loader.chain_dtype f2) ∧
  (∀ files, Main.main pharmacy claims reverts = inr files →
     ∃ df_pharmacies,
       Loader.load_pharmacies pharmacy = inr df_pharmacies ∧
       is_Some (Reports.npi_metrics files) ∧
       is_Some (Reports.chain_recommendations files) ∧
       (is_Some (Reports.quantity_insights files) ↔
        ∃ c p, c ∈ Loader.load_events Claim.id claims ∧ p ∈ df_pharmacies
               ∧ Pharmacy.npi p = Claim.npi c)).
Proof.
  intros HF HE HJ. unfold Main.main.
  rewrite <-load_pharmacies_ValueError, <-load_pharmacies_SchemaError.
  destruct (Loader.load_pharmacies pharmacy) as [e|ph].
  - split_and!; [split; congruence..|done].
  - split_and!; [done..|]. intros files [= <-]. exists ph.
    destruct (run_pharmacy_analytics_files
                (Loader.load_events Claim.id claims)
                (Loader.load_events Revert.id reverts) ph)
      as (Hm & _ & Hc & _ & _ & Hq).
    split_and!; [done|rewrite Hm; by eexists|done|done].
Qed.

(** The sample directories; pharmacy paths without a readable file;
    pharmacy files of two dtypes; and claim paths without a readable
    file, where the run writes two files and raises. *)
Lemma main_outcomes_witness :
  let main := Main.main (F:=Fixed.DecFloat) (E:=Fixed.flip)
                (J:=Fixed.probe_back) in
  Float64Laws Fixed.DecFloat ∧ EngineLaws Fixed.flip ∧
  JoinerLaws Fixed.probe_back ∧
  main Sample.pharmacy_dirs Sample.claim_dirs Sample.revert_dirs
    = inr (Reports.mk (Some Sample.metric_report) (Some Sample.chain_report)
             (Some Sample.insight_report)) ∧
  main Sample.unreadable_pharmacies Sample.claim_dirs Sample.revert_dirs
    = inl Loader.ValueError ∧
  main Sample.mixed_pharmacy_dirs Sample.claim_dirs Sample.revert_dirs
    = inl Loader.SchemaError ∧
  main Sample.pharmacy_dirs Sample.unreadable_claims Sample.revert_dirs
    = inr (Reports.mk (Some []) (Some []) None) ∧
  ∃ df_pharmacies,
    Loader.load_pharmacies (E:=Fixed.flip) Sample.pharmacy_dirs
      = inr df_pharmacies ∧
    is_Some (Reports.npi_metrics
               (Reports.mk (H:=Fixed.DecFloat) (Some []) (Some []) None)) ∧
    is_Some (Reports.chain_recommendations
               (Reports.mk (H:=Fixed.DecFloat) (Some []) (Some []) None)) ∧
    (is_Some (Reports.quantity_insights
                (Reports.mk (H:=Fixed.DecFloat) (Some []) (Some []) None)) ↔
     ∃ c p, c ∈ Loader.load_events (E:=Fixed.flip) Claim.id
                  Sample.unreadable_claims
            ∧ p ∈ df_pharmacies
            ∧ Pharmacy.npi p = Claim.npi (H:=Fixed.DecFloat) c).
Proof.
  intros main.
  assert (main Sample.pharmacy_dirs Sample.unreadable_claims Sample.revert_dirs
          = inr (Reports.mk (Some []) (Some []) None)) as Hrun
    by (vm_compute; reflexivity).
  split; [exact DecFloat_laws|]. split; [exact flip_laws|].
  split; [exact probe_back_laws|].
  split; [vm_compute; reflexivity|]. split; [vm_compute; reflexivity|].
  split; [vm_compute; reflexivity|]. split; [exact Hrun|].
  exact (proj2 (proj2 (main_outcomes Sample.pharmacy_dirs
           Sample.unreadable_claims Sample.revert_dirs
           DecFloat_laws flip_laws probe_back_laws)) _ Hrun).
Defined.

(** ** processor.py: the reports against each other *)

(** X11: the three reports of the same enriched claims speak of the
    same drugs: the metrics report has rows for exactly the drugs that
    have a claim; when there is a claim, so that the quantity report is
    computed, it has rows for exactly these drugs too; and every drug of
    the chain report is among them. *)
Theorem reports_same_drugs `{F : Float64} `{E : Engine}
    (df : list Enriched.t) (ph : list Pharmacy.t) :
  Float64Laws F → EngineLaws E →
  (∀ d, d ∈ Metric.ndc <$> compute_npi_ndc_metrics df ↔
        ∃ c, c ∈ df ∧ Enriched.ndc c = d) ∧
  (df ≠ [] →
   ∃ insights, compute_quantity_insights df = Some insights ∧
     (∀ d, d ∈ Insight.ndc <$> insights ↔
           d ∈ Metric.ndc <$> compute_npi_ndc_metrics df) ∧
     (∀ out row, compute_chain_recommendations df ph = Some out → row ∈ out →
        DrugChains.ndc row ∈ Insight.ndc <$> insights)) ∧
  (∀ out row, compute_chain_recommendations df ph = Some out → row ∈ out →
     DrugChains.ndc row ∈ Metric.ndc <$> compute_npi_ndc_metrics df).
Proof.
  intros HF HE.
  assert (∀ out row, compute_chain_recommendations df ph = Some out →
            row ∈ out → ∃ c, c ∈ df ∧ Enriched.ndc c = DrugChains.ndc row)
    as Hchain.
  { intros out row Hout Hrow.
    destruct (chain_recommendations_spec df ph) as (out' & Hout' & _ & _ & Hel).
    rewrite Hout in Hout'. injection Hout' as <-.
    apply Hel in Hrow as (L & Hne & (_ & _ & HL) & _).
    destruct L as [|[p c] L]; [done|].
    assert (candidate df ph (DrugChains.ndc row) c p) as Hc by (apply HL; left).
    apply candidate_claim in Hc as (r & Hr & Hd & _).
    apply with_chain_inv in Hr as [Hin _]. eauto. }
  split_and!.
  - apply metrics_ndcs.
  - intros Hne. eexists. split; [by apply compute_quantity_insights_cons|].
    split.
    + intros d. by rewrite metrics_ndcs, insights_ndcs.
    + intros out row Hout Hrow. apply insights_ndcs. by eapply Hchain.
  - intros out row Hout Hrow. apply metrics_ndcs. by eapply Hchain.
Qed.

(** The reports of the sample. *)
Lemma reports_same_drugs_witness :
  let df := Sample.enriched in
  let ph := Sample.pharmacies in
  Float64Laws Fixed.DecFloat ∧ EngineLaws Fixed.flip ∧
  df ≠ [] ∧
  ∃ insights, compute_quantity_insights (E:=Fixed.flip) df = Some insights ∧
    (∀ d, d ∈ Insight.ndc <$> insights ↔
          d ∈ Metric.ndc <$> compute_npi_ndc_metrics (E:=Fixed.flip) df) ∧
    (∀ out row,
       compute_chain_recommendations (E:=Fixed.flip) df ph = Some out →
       row ∈ out → DrugChains.ndc row ∈ Insight.ndc <$> insights).
Proof.
  intros df ph.
  assert (df ≠ []) as Hne by (vm_compute; discriminate).
  split; [exact DecFloat_laws|]. split; [exact flip_laws|].
  split; [exact Hne|].
  exact (proj1 (proj2 (reports_same_drugs df ph DecFloat_laws flip_laws)) Hne).
Defined.

(** X12: a row of the chain report never lists a chain twice. *)
Theorem chain_names_NoDup `{F : Float64} `{E : Engine}
    (df : list Enriched.t) (ph : list Pharmacy.t)
    (out : list DrugChains.t) (row : DrugChains.t) :
  Float64Laws F → EngineLaws E →
  compute_chain_recommendations df ph = Some out → row ∈ out →
  NoDup (ChainEntry.name <$> DrugChains.chain row).
Proof.
  intros HF HE Hout Hrow.
  destruct (chain_recommendations_spec df ph) as (out' & Hout' & _ & _ & Hel).
  rewrite Hout in Hout'. injection Hout' as <-.
  apply Hel in Hrow as (L & _ & (Hnd & _ & HL) & ->).
  rewrite <-list_fmap_compose. apply NoDup_fmap_2_strong.
  - intros [p1 c1] [p2 c2] H1%subseteq_take%HL H2%subseteq_take%HL.
    simpl. intros ->. f_equal. by eapply candidate_functional.
  - eapply sublist_NoDup; [done|apply sublist_take].
Qed.

(** The row of drug [d1] in the sample report. *)
Lemma chain_names_NoDup_witness :
  let row := DrugChains.mk "d1"
               [ChainEntry.mk (H:=Fixed.DecFloat) (Some "A") 30000%Z;
                ChainEntry.mk (H:=Fixed.DecFloat) (Some "B") 30000%Z] in
  Float64Laws Fixed.DecFloat ∧ EngineLaws Fixed.flip ∧
  compute_chain_recommendations (E:=Fixed.flip)
    Sample.enriched Sample.pharmacies = Some [row] ∧
  row ∈ [row] ∧
  NoDup (ChainEntry.name <$> DrugChains.chain row).
Proof.
  intros row.
  assert (compute_chain_recommendations (E:=Fixed.flip)
            Sample.enriched Sample.pharmacies = Some [row]) as Hout
    by (vm_compute; reflexivity).
  assert (row ∈ [row]) as Hrow by left.
  split; [exact DecFloat_laws|]. split; [exact flip_laws|].
  split; [exact Hout|]. split; [exact Hrow|].
  exact (chain_names_NoDup Sample.enriched Sample.pharmacies [row] row
           DecFloat_laws flip_laws Hout Hrow).
Defined.

(** ** processor.py: reverts *)

(** X13: reverts whose [claim_id] is the [id] of no claim change
    nothing: the claims are marked as with no revert at all, and every
    row of the metrics report has [reverted = 0]. *)
Theorem reverts_of_unknown_claims `{F : Float64} `{E : Engine}
    (df_claims : list Claim.t) (df_reverts : list Revert.t) :
  EngineLaws E →
  (∀ r c, r ∈ df_reverts → c ∈ df_claims →
          Revert.claim_id r ≠ Claim.id c) →
  mark_reverted_claims df_claims df_reverts
    = mark_reverted_claims df_claims [] ∧
  ∀ row,
    row ∈ compute_npi_ndc_metrics (mark_reverted_claims df_claims df_reverts) →
    Metric.reverted row = 0.
Proof.
  intros HE Hno.
  assert (mark_reverted_claims df_claims df_reverts
          = mark_reverted_claims df_claims []) as Heq.
  { unfold mark_reverted_claims. apply list_fmap_ext.
    intros i c Hc%list_elem_of_lookup_2. f_equal.
    apply bool_decide_ext. csimpl. rewrite elem_of_nil, list_elem_of_fmap.
    split; [|done]. intros (r & Hid & Hr). by eapply Hno. }
  split; [done|]. rewrite Heq.
  intros row (c & Hc & ->)%elem_of_metrics. simpl.
  rewrite filter_none; [done|]. apply Forall_forall.
  intros c' [_ (c'' & -> & _)%list_elem_of_fmap]%list_elem_of_filter.
  unfold Enriched.is_reverted. rewrite bool_decide_eq_true. csimpl.
  apply not_elem_of_nil.
Qed.

(** The sample claims with reverts of claims [c8] and [c9]. *)
Lemma reverts_of_unknown_claims_witness :
  EngineLaws Fixed.flip ∧
  (∀ r c, r ∈ Sample.stray_reverts → c ∈ Sample.claims →
          Revert.claim_id r ≠ Claim.id c) ∧
  mark_reverted_claims Sample.claims Sample.stray_reverts
    = mark_reverted_claims Sample.claims [] ∧
  ∀ row,
    row ∈ compute_npi_ndc_metrics (E:=Fixed.flip)
            (mark_reverted_claims Sample.claims Sample.stray_reverts) →
    Metric.reverted row = 0.
Proof.
  assert (∀ r c, r ∈ Sample.stray_reverts → c ∈ Sample.claims →
                 Revert.claim_id r ≠ Claim.id c) as Hno.
  { intros r c Hr Hc Heq. apply list_elem_of_In in Hr, Hc.
    unfold Sample.stray_reverts, Sample.claims in Hr, Hc. simpl in Hr, Hc.
    destruct Hr as [<-|[<-|[]]];
      repeat (destruct Hc as [<-|Hc]; [vm_compute in Heq; discriminate|]);
      destruct Hc. }
  split; [exact flip_laws|]. split; [exact Hno|].
  exact (reverts_of_unknown_claims Sample.claims Sample.stray_reverts
           flip_laws Hno).
Defined.

(** ** processor.py: the reports and the order of the rows *)

Section row_order_facts.
Context `{F : Float64} {HF : Float64Laws F}.
Context (E1 E2 : Engine) {HE1 : EngineLaws E1} {HE2 : EngineLaws E2}.
Context (Hsum : ∀ l l' : list num, l ≡ₚ l' → fsum l = fsum l').
Implicit Types (df : list Enriched.t) (ph : list Pharmacy.t).

Lemma metrics_perm df1 df2 :
  df1 ≡ₚ df2 →
  compute_npi_ndc_metrics (E:=E1) df1 = compute_npi_ndc_metrics (E:=E2) df2.
Proof.
  intros Hp.
  assert (∀ n d, metrics_agg ((n, d), metrics_group df1 n d)
                 = metrics_agg ((n, d), metrics_group df2 n d)) as Hagg.
  { intros n d. unfold metrics_agg. simpl.
    assert (metrics_group df1 n d ≡ₚ metrics_group df2 n d) as Hg
      by (unfold metrics_group; by rewrite Hp).
    f_equal; [by rewrite Hg|by rewrite Hg|(apply Hsum; by rewrite Hg)..]. }
  apply (sorted_ext metric_key (lex_leb str_leb str_leb));
    [apply metrics_sorted|apply metrics_sorted
    |apply metrics_keys_NoDup|apply metrics_keys_NoDup|].
  intros row. rewrite !elem_of_metrics.
  split; intros (c & Hc & ->); exists c; simpl; rewrite Hagg;
    (split; [|done]).
  - by rewrite <-Hp.
  - by rewrite Hp.
Qed.

Lemma candidate_perm df1 df2 ph d c p :
  df1 ≡ₚ df2 → candidate df1 ph d c p ↔ candidate df2 ph d c p.
Proof.
  intros Hp. unfold candidate.
  assert (chain_group df1 ph d c ≡ₚ chain_group df2 ph d c) as Hg
    by (unfold chain_group, with_chain, join_left; by rewrite Hp).
  rewrite (Hsum (WithChain.quantity <$> chain_group df1 ph d c)
                (WithChain.quantity <$> chain_group df2 ph d c))
    by by rewrite Hg.
  rewrite (Hsum (WithChain.price <$> chain_group df1 ph d c)
                (WithChain.price <$> chain_group df2 ph d c))
    by by rewrite Hg.
  assert (chain_group df1 ph d c ≠ [] ↔ chain_group df2 ph d c ≠ []) as ->;
    [|done].
  split; intros Hne Hnil; apply Hne.
  - apply Permutation_nil_r. by rewrite Hg, Hnil.
  - apply Permutation_nil_r. by rewrite <-Hg, Hnil.
Qed.

Lemma chain_perm df1 df2 ph :
  df1 ≡ₚ df2 →
  compute_chain_recommendations (E:=E1) df1 ph
  = compute_chain_recommendations (E:=E2) df2 ph.
Proof.
  intros Hp.
  destruct (chain_recommendations_spec (E:=E1) df1 ph)
    as (out1 & -> & Hs1 & Hn1 & Hel1).
  destruct (chain_recommendations_spec (E:=E2) df2 ph)
    as (out2 & -> & Hs2 & Hn2 & Hel2).
  f_equal. apply (sorted_ext DrugChains.ndc str_leb); try done.
  intros row. rewrite Hel1, Hel2. unfold ranked.
  by setoid_rewrite (λ d c p, candidate_perm df1 df2 ph d c p Hp).
Qed.

Lemma quantity_perm df1 df2 :
  df1 ≡ₚ df2 →
  compute_quantity_insights (E:=E1) df1 = compute_quantity_insights (E:=E2) df2.
Proof.
  intros Hp.
  destruct (decide (df1 = [])) as [->|Hne].
  { apply Permutation_nil_l in Hp. subst df2.
    by rewrite !compute_quantity_insights_nil. }
  assert (df2 ≠ []) as Hne2.
  { intros ->. by apply Permutation_nil_r in Hp. }
  rewrite !compute_quantity_insights_cons by done. f_equal.
  destruct (quantity_insights_spec (E:=E1) df1) as (Hs1 & Hn1 & Hel1).
  destruct (quantity_insights_spec (E:=E2) df2) as (Hs2 & Hn2 & Hel2).
  apply (sorted_ext Insight.ndc str_leb); try done.
  intros row. rewrite Hel1, Hel2.
  assert (∀ d q, qty_count df1 d q = qty_count df2 d q) as Hcount
    by (intros d q; unfold qty_count; by rewrite Hp).
  unfold sorted_modes, is_mode. setoid_rewrite Hcount.
  by setoid_rewrite Hp.
Qed.
End row_order_facts.

Lemma DecFloat_fsum_perm (l l' : list Z) :
  l ≡ₚ l' → fsum (Float64:=Fixed.DecFloat) l = fsum (Float64:=Fixed.DecFloat) l'.
Proof.
  simpl. generalize 0%Z.
  intros a Hp. revert a.
  induction Hp as [|x l l' _ IH|x y l|l1 l2 l3 _ IH1 _ IH2]; intros a; simpl.
  - done.
  - apply IH.
  - f_equal. lia.
  - by rewrite IH1.
Qed.

(** X14: the reports depend on the order of the rows the inner join
    returns only through the sums of [price] and [quantity]: when summing
    a column gives the same number in whatever order the rows are taken,
    two runs leave the same files even if their joins return the claims
    in different orders. *)
Theorem reports_independent_of_join_order `{F : Float64}
    (J1 J2 : Joiner) (E1 E2 : Engine)
    (df_claims : list Claim.t) (df_reverts : list Revert.t)
    (df_pharmacies : list Pharmacy.t) :
  Float64Laws F → JoinerLaws J1 → JoinerLaws J2 →
  EngineLaws E1 → EngineLaws E2 →
  (∀ l l' : list num, l ≡ₚ l' → fsum l = fsum l') →
  run_pharmacy_analytics (E:=E1) (J:=J1) df_claims df_reverts df_pharmacies
  = run_pharmacy_analytics (E:=E2) (J:=J2) df_claims df_reverts df_pharmacies.
Proof.
  intros HF HJ1 HJ2 HE1 HE2 Hsum. unfold run_pharmacy_analytics.
  set (df1 := mark_reverted_claims (filter_to_pharmacy_dataset (J:=J1) _ _) _).
  set (df2 := mark_reverted_claims (filter_to_pharmacy_dataset (J:=J2) _ _) _).
  assert (df1 ≡ₚ df2) as Hp.
  { unfold df1, df2, mark_reverted_claims, filter_to_pharmacy_dataset,
      join_inner.
    by rewrite !inner_order_perm. }
  rewrite (metrics_perm E1 E2 Hsum df1 df2 Hp).
  rewrite (chain_perm E1 E2 Hsum df1 df2 df_pharmacies Hp).
  by rewrite (quantity_perm E1 E2 df1 df2 Hp).
Qed.

(** The sample with the join in the order of the claims and with the
    join the other way round; decimal sums do not depend on the order. *)
Lemma reports_independent_of_join_order_witness :
  Float64Laws Fixed.DecFloat ∧
  JoinerLaws Fixed.probe_left ∧ JoinerLaws Fixed.probe_back ∧
  EngineLaws Fixed.keep ∧ EngineLaws Fixed.flip ∧
  (∀ l l' : list Z, l ≡ₚ l' →
     fsum (Float64:=Fixed.DecFloat) l = fsum (Float64:=Fixed.DecFloat) l') ∧
  filter_to_pharmacy_dataset (J:=Fixed.probe_left)
    Sample.claims Sample.pharmacies
  ≠ filter_to_pharmacy_dataset (J:=Fixed.probe_back)
      Sample.claims Sample.pharmacies ∧
  run_pharmacy_analytics (E:=Fixed.keep) (J:=Fixed.probe_left)
    Sample.claims Sample.reverts Sample.pharmacies
  = run_pharmacy_analytics (E:=Fixed.flip) (J:=Fixed.probe_back)
      Sample.claims Sample.reverts Sample.pharmacies.
Proof.
  split; [exact DecFloat_laws|].
  split; [exact probe_left_laws|]. split; [exact probe_back_laws|].
  split; [exact keep_laws|]. split; [exact flip_laws|].
  split; [exact DecFloat_fsum_perm|].
  split; [vm_compute; discriminate|].
  exact (reports_independent_of_join_order
           Fixed.probe_left Fixed.probe_back Fixed.keep Fixed.flip
           Sample.claims Sample.reverts Sample.pharmacies
           DecFloat_laws probe_left_laws probe_back_laws keep_laws flip_laws
           DecFloat_fsum_perm).
Defined.
